(** * COVID_example.py: a shallow embedding and its specification

    The script reads the regional CSV files of the Protezione Civile,
    builds one [Region] object per row, ranks the rows by their
    death-to-case ratio and averages the new cases per region.

    Python values are modelled as the script uses them:
    - [str] is [string]; a character is a code point below 256
      (code points beyond Latin-1 are outside the model);
    - [int] is [Z] (unbounded);
    - [float] is an IEEE 754 binary64 number, [spec_float] at precision 53
      and maximal exponent 1024;
    - a raised exception is the [Err] case of [result]. *)

From Stdlib Require Import ZArith List Bool Lia Ascii String.
From Stdlib Require Import Permutation Sorted.
From Stdlib Require Import Floats.SpecFloat.
Import ListNotations.

Open Scope string_scope.
Open Scope list_scope.
Open Scope Z_scope.

(** ** Exceptions *)

Inductive exn : Type :=
| ValueError
| TypeError
| ZeroDivisionError
| OverflowError
| IndexError
| KeyError
| FileNotFoundError
| UnicodeDecodeError.

Inductive result (A : Type) : Type :=
| Ok (a : A)
| Err (e : exn).

Arguments Ok {A} a.
Arguments Err {A} e.

Definition bind {A B : Type} (c : result A) (k : A -> result B) : result B :=
  match c with
  | Ok a => k a
  | Err e => Err e
  end.

Notation "x <- c ;; k" := (bind c (fun x => k))
  (at level 61, c at next level, right associativity).
Notation "' p <- c ;; k" := (bind c (fun x => let p := x in k))
  (at level 61, p pattern, c at next level, right associativity).

Fixpoint mapM {A B : Type} (f : A -> result B) (l : list A) : result (list B) :=
  match l with
  | [] => Ok []
  | a :: l' =>
      b <- f a ;;
      bs <- mapM f l' ;;
      Ok (b :: bs)
  end.

(** ** Strings *)

Definition nl : ascii := "010"%char.
Definition cr : ascii := "013"%char.
Definition comma : ascii := ","%char.

(** [s[a:b]] for constant bounds [0 <= a <= b]: out-of-range bounds are
    clamped to the length, never an error. *)
Fixpoint drop (n : nat) (s : string) : string :=
  match n, s with
  | O, _ => s
  | S n', String _ s' => drop n' s'
  | S _, EmptyString => EmptyString
  end.

Fixpoint take (n : nat) (s : string) : string :=
  match n, s with
  | S n', String c s' => String c (take n' s')
  | _, _ => EmptyString
  end.

Definition py_slice (s : string) (a b : nat) : string :=
  take (b - a) (drop a s).

(** [s.replace(c, '')] for a one-character [c]. *)
Fixpoint remove_char (c : ascii) (s : string) : string :=
  match s with
  | EmptyString => EmptyString
  | String x s' =>
      if Ascii.eqb x c then remove_char c s' else String x (remove_char c s')
  end.

(** [s.split(c)] for a one-character separator: always at least one field. *)
Fixpoint split (c : ascii) (s : string) : list string :=
  match s with
  | EmptyString => [EmptyString]
  | String x s' =>
      if Ascii.eqb x c then EmptyString :: split c s'
      else match split c s' with
           | f :: fs => String x f :: fs
           | [] => [String x EmptyString]
           end
  end.

(** ** [int(x)] on a [str]

    The base-10 path of CPython's [PyLong_FromString]: optional blanks, an
    optional sign, digits with single underscores between them, optional
    blanks, and nothing else.  The no-break space and the next-line control
    are the two blanks of Latin-1 that a non-ASCII string has replaced by
    a space before the scan.  The limit that recent interpreters put on the
    number of digits (4300 unless configured) is not modelled. *)

Definition is_space (c : ascii) : bool :=
  let n := N_of_ascii c in
  ((9 <=? n) && (n <=? 13) || (n =? 32) || (n =? 133) || (n =? 160))%N.

Definition digit_value (c : ascii) : option Z :=
  let n := N_of_ascii c in
  if ((48 <=? n) && (n <=? 57))%N then Some (Z.of_N n - 48) else None.

Definition is_digit (c : ascii) : bool :=
  match digit_value c with Some _ => true | None => false end.

Definition is_underscore (c : ascii) : bool := Ascii.eqb c "_"%char.

Fixpoint skip_spaces (s : string) : string :=
  match s with
  | String c s' => if is_space c then skip_spaces s' else s
  | EmptyString => s
  end.

(** The digit scan: [prev_us] records that the previous character was an
    underscore; the scan stops at the first character that is neither a
    digit nor an underscore and gives back the value and what is left. *)
Fixpoint scan_digits (s : string) (prev_us : bool) (acc : Z)
  : option (Z * string) :=
  match s with
  | String c s' =>
      match digit_value c with
      | Some d => scan_digits s' false (10 * acc + d)
      | None =>
          if is_underscore c then
            if prev_us then None else scan_digits s' true acc
          else if prev_us then None else Some (acc, s)
      end
  | EmptyString => if prev_us then None else Some (acc, s)
  end.

(** The sign, if there is one, and what follows it. *)
Definition strip_sign (s : string) : bool * string :=
  match s with
  | String c s' =>
      if Ascii.eqb c "+" then (false, s')
      else if Ascii.eqb c "-" then (true, s')
      else (false, s)
  | EmptyString => (false, s)
  end.

Definition py_int (x : string) : result Z :=
  let '(neg, s) := strip_sign (skip_spaces x) in
  match s with
  | String c _ =>
      if is_digit c then
        match scan_digits s false 0 with
        | Some (v, rest) =>
            match skip_spaces rest with
            | EmptyString => Ok (if neg then - v else v)
            | String _ _ => Err ValueError
            end
        | None => Err ValueError
        end
      else Err ValueError
  | EmptyString => Err ValueError
  end.

(** ** The [Region] object *)

(** A numeric attribute of a [Region]: an [int], or the string ['nan']. *)
Inductive field : Type :=
| FInt (z : Z)
| FNan.

(** [str2int]: the bare [except] turns every failure of [int] into
    ['nan']. *)
Definition str2int (x : string) : field :=
  match py_int x with
  | Ok z => FInt z
  | Err _ => FNan
  end.

Record Region : Type := mkRegion {
  Date : string;
  Name : string;
  ICU : field;
  NewCases : field;
  Deaths : field;
  TotalCases : field;
  Tests : field
}.

(** [row[i]] on a list: [IndexError] beyond the end. *)
Definition getitem {A : Type} (row : list A) (i : nat) : result A :=
  match nth_error row i with
  | Some x => Ok x
  | None => Err IndexError
  end.

(** [Region.__init__], the attributes in the order the constructor reads
    them. *)
Definition Region_init (row : list string) : result Region :=
  date <- getitem row 0 ;;
  name <- getitem row 3 ;;
  icu <- getitem row 7 ;;
  newcases <- getitem row 12 ;;
  deaths <- getitem row 14 ;;
  totalcases <- getitem row 10 ;;
  tests <- getitem row 16 ;;
  Ok (mkRegion date name (str2int icu) (str2int newcases) (str2int deaths)
        (str2int totalcases) (str2int tests)).


(** ** Reading the files *)

(** What [open(filename, 'r', encoding = 'utf-8')] and the reads that follow
    give for a path: the decoded text, [FileNotFoundError] for a missing
    file, [UnicodeDecodeError] for bytes that are not UTF-8.  [Parse] reads
    every file to its end, so a decoding error anywhere aborts the call. *)
Definition filesystem : Type := string -> result string.

(** Text mode with the default [newline]: ["\r\n"] and a lone ["\r"] are
    read as ["\n"]. *)
Fixpoint universal_newlines (s : string) : string :=
  match s with
  | EmptyString => EmptyString
  | String c s' =>
      if Ascii.eqb c cr then
        String nl
          match s' with
          | String c' s'' =>
              if Ascii.eqb c' nl then universal_newlines s''
              else universal_newlines s'
          | EmptyString => EmptyString
          end
      else String c (universal_newlines s')
  end.

(** The lines of a text file, each with its terminator; the last one has
    none when the text does not end with a newline. *)
Fixpoint lines_keepends (s : string) : list string :=
  match s with
  | EmptyString => []
  | String c s' =>
      if Ascii.eqb c nl then String nl EmptyString :: lines_keepends s'
      else match lines_keepends s' with
           | l :: ls => String c l :: ls
           | [] => [String c EmptyString]
           end
  end.

(** The [for l in fh] loop of [Parse], [Ls] being the list built so far. *)
Fixpoint Parse_loop (fh : list string) (Ls : list Region)
  : result (list Region) :=
  match fh with
  | [] => Ok Ls
  | l :: fh' =>
      let row := split comma (remove_char nl l) in
      r <- Region_init row ;;
      Parse_loop fh' (Ls ++ [r])
  end.

Definition Parse (fs : filesystem) (filename : string)
  : result (list Region) :=
  text <- fs filename ;;
  let fh := lines_keepends (universal_newlines text) in
  let fh := tl fh in
  Parse_loop fh [].

(** The [for n in names] loop of [ParseFiles]. *)
Fixpoint ParseFiles_loop (fs : filesystem) (names : list string)
  (Rs : list Region) : result (list Region) :=
  match names with
  | [] => Ok Rs
  | n :: names' =>
      p <- Parse fs n ;;
      ParseFiles_loop fs names' (Rs ++ p)
  end.

Definition ParseFiles (fs : filesystem) (names : list string)
  : result (list Region) :=
  ParseFiles_loop fs names [].

(** ** Floats *)

Definition prec : Z := 53.
Definition emax : Z := 1024.
Definition float : Type := spec_float.

Definition is_nan (x : float) : bool :=
  match x with S754_nan => true | _ => false end.

Definition is_zero (x : float) : bool :=
  match x with S754_zero _ => true | _ => false end.

(** [float(z)] and the implicit conversion of an [int] operand: the nearest
    double, ties to even; [OverflowError] when that is not finite. *)
Definition float_of_int (z : Z) : result float :=
  match binary_normalize prec emax z 0 false with
  | S754_infinity _ => Err OverflowError
  | x => Ok x
  end.

(** [float(v)] for an attribute: [float('nan')] is the not-a-number float. *)
Definition py_float (v : field) : result float :=
  match v with
  | FInt z => float_of_int z
  | FNan => Ok S754_nan
  end.

(** [a / w] for a float [a]: a [str] operand is a [TypeError], an [int] is
    converted first, and a zero divisor is refused before dividing. *)
Definition float_truediv (a : float) (w : field) : result float :=
  match w with
  | FNan => Err TypeError
  | FInt t =>
      b <- float_of_int t ;;
      if is_zero b then Err ZeroDivisionError
      else Ok (SFdiv prec emax a b)
  end.

(** [a < b] on floats: false as soon as one side is not a number. *)
Definition float_lt (a b : float) : bool := SFltb a b.

(** An integer as an exact, not yet rounded, operand. *)
Definition exact_int (z : Z) : float :=
  match z with
  | Z0 => S754_zero false
  | Zpos p => S754_finite false p 0
  | Zneg p => S754_finite true p 0
  end.

(** [a / b] on two [int]s: the exact quotient rounded once to the nearest
    double, ties to even. *)
Definition int_truediv (a b : Z) : result float :=
  if b =? 0 then Err ZeroDivisionError
  else if a =? 0 then Ok (S754_zero (b <? 0))
  else match SFdiv prec emax (exact_int a) (exact_int b) with
       | S754_infinity _ => Err OverflowError
       | q => Ok q
       end.

(** [num / den] rounded to the nearest integer, ties to the even one, for
    [num >= 0] and [den > 0]. *)
Definition div_half_even (num den : Z) : Z :=
  let q := num / den in
  let r := num mod den in
  match 2 * r ?= den with
  | Lt => q
  | Gt => q + 1
  | Eq => if Z.even q then q else q + 1
  end.

(** The number of hundredths nearest to the exact value [m * 2^e]. *)
Definition hundredths (m : positive) (e : Z) : Z :=
  if 0 <=? e then Z.pos m * 2 ^ e * 100
  else div_half_even (Z.pos m * 100) (2 ^ (- e)).

(** [round(x, 2)] on a float: the exact value of [x] is rounded to two
    decimals, ties to even, and the decimal result is read back as the
    nearest double; zeros, infinities and not-a-number round to
    themselves. *)
Definition py_round2 (x : float) : float :=
  match x with
  | S754_finite s m e =>
      match hundredths m e with
      | Zpos n => SFdiv prec emax (S754_finite s n 0) (exact_int 100)
      | _ => S754_zero s
      end
  | _ => x
  end.

(** ** Ranking *)

(** [float(self.Deaths) / self.TotalCases]. *)
Definition ratio (r : Region) : result float :=
  d <- py_float (Deaths r) ;;
  float_truediv d (TotalCases r).

(** [Region.__lt__]: the left ratio is computed first. *)
Definition Region_lt (self other : Region) : result bool :=
  x <- ratio self ;;
  y <- ratio other ;;
  Ok (float_lt x y).


(** ** [sorted]

    [list.sort] compares with [<] only and propagates the first exception a
    comparison raises.  It first takes the longest run at the front of the
    list, non-descending or strictly descending (the latter is reversed in
    place), then inserts the elements that follow one by one at the
    position a binary search finds.  This is the whole algorithm below 64
    elements; longer lists are cut into such runs that are then merged,
    stably as well, hence with the same result whenever [<] is a
    consistent order (see [stable_sorted_unique] below). *)

Section ListSort.
Context {A : Type}.
Variable lt : A -> A -> result bool.

(** The run continues while each element is smaller than the one before;
    [n] elements are in the run so far and [prev] is the last of them. *)
Fixpoint run_descending (prev : A) (l : list A) (n : nat) : result nat :=
  match l with
  | [] => Ok n
  | x :: l' =>
      c <- lt x prev ;;
      if c then run_descending x l' (S n) else Ok n
  end.

(** The run continues until an element is smaller than the one before. *)
Fixpoint run_ascending (prev : A) (l : list A) (n : nat) : result nat :=
  match l with
  | [] => Ok n
  | x :: l' =>
      c <- lt x prev ;;
      if c then Ok n else run_ascending x l' (S n)
  end.

(** Length of the run at the front, and whether it is descending. *)
Definition count_run (l : list A) : result (nat * bool) :=
  match l with
  | [] => Ok (O, false)
  | [_] => Ok (1%nat, false)
  | x0 :: x1 :: l' =>
      c <- lt x1 x0 ;;
      if c then n <- run_descending x1 l' 2 ;; Ok (n, true)
      else n <- run_ascending x1 l' 2 ;; Ok (n, false)
  end.

(** The binary search of [binarysort] in the sorted prefix [a], between
    [l] and [r]: a loop whose body runs at least once and that halves
    [r - l] each time, so [r - l] rounds are enough.  The probed index
    [p] satisfies [l <= p < r], within [a]. *)
Fixpoint bisect (fuel : nat) (pivot : A) (a : list A) (l r : nat)
  : result nat :=
  match fuel with
  | O => Ok l
  | S fuel' =>
      let p := (l + Nat.div2 (r - l))%nat in
      c <- lt pivot (nth p a pivot) ;;
      let '(l', r') := if c then (l, p) else (S p, r) in
      if (l' <? r')%nat then bisect fuel' pivot a l' r' else Ok l'
  end.

(** Shifting the elements from [k] on one place up and storing [x]. *)
Definition insert_at (k : nat) (x : A) (a : list A) : list A :=
  firstn k a ++ x :: skipn k a.

Fixpoint binarysort_loop (pre rest : list A) : result (list A) :=
  match rest with
  | [] => Ok pre
  | pivot :: rest' =>
      k <- bisect (List.length pre) pivot pre 0 (List.length pre) ;;
      binarysort_loop (insert_at k pivot pre) rest'
  end.

(** [pre] is the sorted front; an empty front takes the first element. *)
Definition binarysort (pre rest : list A) : result (list A) :=
  match pre, rest with
  | [], x :: rest' => binarysort_loop [x] rest'
  | _, _ => binarysort_loop pre rest
  end.

Definition list_sort (l : list A) : result (list A) :=
  if (List.length l <? 2)%nat then Ok l
  else
    '(n, descending) <- count_run l ;;
    let run := firstn n l in
    binarysort (if descending then rev run else run) (skipn n l).

(** [sorted(l, reverse=True)]: the copy is reversed, sorted, and reversed
    again, which keeps equal elements in their original order. *)
Definition sorted_reverse (l : list A) : result (list A) :=
  s <- list_sort (rev l) ;;
  Ok (rev s).
End ListSort.

(** [l[:n]]: a negative [n] counts from the end. *)
Definition py_take {A : Type} (n : Z) (l : list A) : list A :=
  if n <? 0 then firstn (Z.to_nat (Z.max 0 (Z.of_nat (List.length l) + n))) l
  else firstn (Z.to_nat n) l.

(** [TopRegion(Ls, n)]; a call without [n] is [TopRegion Ls 3]. *)
Definition TopRegion (Ls : list Region) (n : Z) : result (list Region) :=
  s <- sorted_reverse Region_lt Ls ;;
  Ok (py_take n s).

(** ** Averaging *)

(** A [dict] with [str] keys: the entries in insertion order, one per
    key. *)
Definition dict (V : Type) : Type := list (string * V).

Definition keys {V : Type} (d : dict V) : list string := map fst d.

Fixpoint dict_find {V : Type} (d : dict V) (k : string) : option V :=
  match d with
  | [] => None
  | (k', v) :: d' => if String.eqb k' k then Some v else dict_find d' k
  end.

(** [d.get(k, default)]. *)
Definition dict_get {V : Type} (d : dict V) (k : string) (default : V) : V :=
  match dict_find d k with
  | Some v => v
  | None => default
  end.

(** [d[k]]. *)
Definition dict_getitem {V : Type} (d : dict V) (k : string) : result V :=
  match dict_find d k with
  | Some v => Ok v
  | None => Err KeyError
  end.

(** [d[k] = v]: a known key keeps its place, a new one goes last. *)
Fixpoint dict_set {V : Type} (d : dict V) (k : string) (v : V) : dict V :=
  match d with
  | [] => [(k, v)]
  | (k', v') :: d' =>
      if String.eqb k' k then (k, v) :: d' else (k', v') :: dict_set d' k v
  end.

(** [a + w] for an [int] [a]: adding the string ['nan'] is a
    [TypeError]. *)
Definition int_add (a : Z) (w : field) : result Z :=
  match w with
  | FInt z => Ok (a + z)
  | FNan => Err TypeError
  end.

(** The first loop of [ComputeAverage]: the sums [D] and the counts [C]. *)
Fixpoint accumulate (Ls : list Region) (D C : dict Z)
  : result (dict Z * dict Z) :=
  match Ls with
  | [] => Ok (D, C)
  | l :: Ls' =>
      s <- int_add (dict_get D (Name l) 0) (NewCases l) ;;
      let D := dict_set D (Name l) s in
      let C := dict_set C (Name l) (dict_get C (Name l) 0 + 1) in
      accumulate Ls' D C
  end.

(** The second loop, over the entries of [D] in order: each sum is
    replaced by the rounded quotient. *)
Fixpoint averages (entries : dict Z) (C : dict Z) : result (dict float) :=
  match entries with
  | [] => Ok []
  | (name, s) :: entries' =>
      c <- dict_getitem C name ;;
      q <- int_truediv s c ;;
      rest <- averages entries' C ;;
      Ok ((name, py_round2 q) :: rest)
  end.

Definition ComputeAverage (Ls : list Region) : result (dict float) :=
  '(D, C) <- accumulate Ls [] [] ;;
  averages D C.

(** ** Dates *)

Definition str2date (s : string) : string :=
  let year := py_slice s 0 4 in
  let month := py_slice s 5 7 in
  let day := py_slice s 8 10 in
  (year ++ "-" ++ month ++ "-" ++ day)%string.


(** ** Notions the properties are stated with *)

(** Every character of [s] satisfies [p]. *)
Fixpoint all_chars (p : ascii -> bool) (s : string) : bool :=
  match s with
  | EmptyString => true
  | String c s' => p c && all_chars p s'
  end.

(** The digits of an integer literal and their value: one digit, or a
    shorter such sequence followed by a digit, with at most one underscore
    in between. *)
Inductive int_digits : string -> Z -> Prop :=
| digits_one (c : ascii) (d : Z) :
    digit_value c = Some d ->
    int_digits (String c EmptyString) d
| digits_more (s : string) (v : Z) (c : ascii) (d : Z) :
    int_digits s v ->
    digit_value c = Some d ->
    int_digits (s ++ String c EmptyString) (10 * v + d)
| digits_under (s : string) (v : Z) (c : ascii) (d : Z) :
    int_digits s v ->
    digit_value c = Some d ->
    int_digits (s ++ String "_" (String c EmptyString)) (10 * v + d).

(** A valid integer string and the integer it denotes: blanks, an optional
    sign, the digits, blanks. *)
Inductive int_literal : string -> Z -> Prop :=
| literal_unsigned (ws1 ds ws2 : string) (v : Z) :
    all_chars is_space ws1 = true ->
    all_chars is_space ws2 = true ->
    int_digits ds v ->
    int_literal (ws1 ++ ds ++ ws2) v
| literal_plus (ws1 ds ws2 : string) (v : Z) :
    all_chars is_space ws1 = true ->
    all_chars is_space ws2 = true ->
    int_digits ds v ->
    int_literal (ws1 ++ "+" ++ ds ++ ws2) v
| literal_minus (ws1 ds ws2 : string) (v : Z) :
    all_chars is_space ws1 = true ->
    all_chars is_space ws2 = true ->
    int_digits ds v ->
    int_literal (ws1 ++ "-" ++ ds ++ ws2) (- v).

(** [n] decimal digits. *)
Definition digits_n (n : nat) (s : string) : bool :=
  (String.length s =? n)%nat && all_chars is_digit s.

(** A timestamp of the exact form [YYYY-MM-DDThh:mm:ss]. *)
Inductive timestamp : string -> Prop :=
| timestamp_intro (Y M D h m sec : string) :
    digits_n 4 Y = true ->
    digits_n 2 M = true ->
    digits_n 2 D = true ->
    digits_n 2 h = true ->
    digits_n 2 m = true ->
    digits_n 2 sec = true ->
    timestamp (Y ++ "-" ++ M ++ "-" ++ D ++ "T" ++ h ++ ":" ++ m ++ ":" ++ sec).



(** A row of the regional CSV layout with the seven columns that
    [Region] reads; the other columns are left empty. *)
Definition csv_row (date name icu total new deaths tests : string)
  : list string :=
  [date; ""; ""; name; ""; ""; ""; icu; ""; ""; total; ""; new; "";
   deaths; ""; tests].

(** A string that is empty or starts with a character that is no blank. *)
Definition starts_nonspace (t : string) : Prop :=
  match t with
  | String c _ => is_space c = false
  | EmptyString => True
  end.


(** A line of text: no line terminator inside. *)
Definition plain_line (l : string) : bool :=
  all_chars (fun c => negb (Ascii.eqb c nl || Ascii.eqb c cr)) l.

(** The text of a file with the lines [ls], each but the last followed by
    a newline; the last one is, too, when [final_newline] is set. *)
Fixpoint file_lines (ls : list string) (final_newline : bool) : string :=
  match ls with
  | [] => EmptyString
  | l :: ls' =>
      match ls' with
      | [] => if final_newline then (l ++ String nl EmptyString)%string else l
      | _ :: _ => (l ++ String nl (file_lines ls' final_newline))%string
      end
  end.

(** A data row with the columns [Region] reads: 17 fields at least. *)
Definition full_row (r : string) : bool :=
  (17 <=? List.length (split comma r))%nat.

(** A file system with the one file [name], of text [text]. *)
Definition one_file (name text : string) : filesystem :=
  fun path => if String.eqb path name then Ok text else Err FileNotFoundError.

(** The header of the regional files and one of their rows. *)
Definition sample_header : string :=
  "data,stato,codice_regione,denominazione_regione,lat,long,ricoverati_con_sintomi,terapia_intensiva,totale_ospedalizzati,isolamento_domiciliare,totale_positivi,variazione_totale_positivi,nuovi_positivi,dimessi_guariti,deceduti,totale_casi,tamponi,casi_testati,note_it,note_en".

Definition sample_row : string :=
  "2020-06-15T17:00:00,ITA,12,Lazio,41.89277044,12.48366722,271,41,312,2387,2699,-42,14,4422,807,7928,321815,269185,,".

(** The names in the order of their first occurrence. *)
Fixpoint add_name (ks : list string) (k : string) : list string :=
  match ks with
  | [] => [k]
  | k' :: ks' => if String.eqb k' k then ks else k' :: add_name ks' k
  end.

Definition distinct_names (Ls : list Region) : list string :=
  fold_left add_name (map Name Ls) [].

Definition int_new_cases (l : Region) : bool :=
  match NewCases l with
  | FInt _ => true
  | FNan => false
  end.

(** The integer new-case counts of the observations of one region. *)
Definition new_cases_of (name : string) (Ls : list Region) : list Z :=
  flat_map (fun l =>
              if String.eqb (Name l) name then
                match NewCases l with
                | FInt z => [z]
                | FNan => []
                end
              else []) Ls.

Definition sum (zs : list Z) : Z := fold_right Z.add 0 zs.

(** The mean of the new cases of one region as Python computes it:
    the quotient of sum and count as a double, rounded to two decimals. *)
Definition group_average (Ls : list Region) (name : string) : result float :=
  let zs := new_cases_of name Ls in
  q <- int_truediv (sum zs) (Z.of_nat (List.length zs)) ;;
  Ok (py_round2 q).

(** The mapping of each region to its average, region by region. *)
Definition region_averages (Ls : list Region) : result (dict float) :=
  mapM (fun name => a <- group_average Ls name ;; Ok (name, a))
    (distinct_names Ls).

(** The float a decimal literal with two decimals denotes, such as [1.33]
    for [decimal2 133]: the nearest double. *)
Definition decimal2 (n : Z) : float :=
  SFdiv prec emax (exact_int n) (exact_int 100).

(** Observations of one region with the given new-case counts; the other
    columns are not numeric. *)
Definition new_cases (name : string) (zs : list Z) : list Region :=
  map (fun z => mkRegion "2020-06-15T17:00:00" name FNan (FInt z) FNan FNan
                  FNan) zs.

(** The exception [e] is raised by the comparison of two elements of
    [l]. *)
Definition raised_by {A : Type} (lt : A -> A -> result bool) (l : list A)
  (e : exn) : Prop :=
  exists a b : A, In a l /\ In b l /\ lt a b = Err e.

(** The order a sort is judged by: [ltb] is the comparison as a total
    function, [good] the elements on which it is an order. *)
Definition le_on {A : Type} (ltb : A -> A -> bool) (good : A -> Prop)
  (a b : A) : Prop :=
  good a /\ good b /\ ltb b a = false.

Definition gt_on {A : Type} (ltb : A -> A -> bool) (good : A -> Prop)
  (a b : A) : Prop :=
  good a /\ good b /\ ltb b a = true.

(** [x] and [a] are equal for the order: neither is less. *)
Definition eqv {A : Type} (ltb : A -> A -> bool) (x a : A) : bool :=
  negb (ltb x a) && negb (ltb a x).

(** [s] is [l] sorted, equal elements in the order they have in [l]. *)
Definition stable_sorted {A : Type} (ltb : A -> A -> bool)
  (good : A -> Prop) (s l : list A) : Prop :=
  Permutation s l
  /\ StronglySorted (le_on ltb good) s
  /\ forall x : A, good x -> filter (eqv ltb x) s = filter (eqv ltb x) l.

(** The number of elements of [l] that continue a run ending in [prev]. *)
Fixpoint asc_len {A : Type} (ltb : A -> A -> bool) (prev : A) (l : list A)
  : nat :=
  match l with
  | [] => O
  | x :: l' => if ltb x prev then O else S (asc_len ltb x l')
  end.

Fixpoint desc_len {A : Type} (ltb : A -> A -> bool) (prev : A) (l : list A)
  : nat :=
  match l with
  | [] => O
  | x :: l' => if ltb x prev then S (desc_len ltb x l') else O
  end.

(** The search interval of [bisect]: [pivot] is not less than any element
    before [l] and less than every element from [r] on. *)
Definition bisect_inv {A : Type} (ltb : A -> A -> bool) (pivot : A)
  (a : list A) (l r : nat) : Prop :=
  (l <= r <= List.length a)%nat
  /\ (forall i, (i < l)%nat -> ltb pivot (nth i a pivot) = false)
  /\ (forall i, (r <= i < List.length a)%nat ->
                ltb pivot (nth i a pivot) = true).

(** An observation whose ratio is a number: the computation succeeds and
    does not give the not-a-number float. *)
Definition comparable (r : Region) : bool :=
  match ratio r with
  | Ok x => negb (is_nan x)
  | Err _ => false
  end.

(** The ratio and the comparison as total functions. *)
Definition ratio_value (r : Region) : float :=
  match ratio r with
  | Ok x => x
  | Err _ => S754_nan
  end.

Definition Region_ltb (a b : Region) : bool :=
  float_lt (ratio_value a) (ratio_value b).



(** A key that orders the floats that are numbers as [<] does: the class
    first ([-inf], negative, zero, positive, [+inf]), then exponent and
    mantissa. *)
Definition float_key (x : float) : Z * Z * Z :=
  match x with
  | S754_infinity true => (-2, 0, 0)
  | S754_finite true m e => (-1, - e, Z.neg m)
  | S754_zero _ => (0, 0, 0)
  | S754_finite false m e => (1, e, Z.pos m)
  | S754_infinity false => (2, 0, 0)
  | S754_nan => (3, 0, 0)
  end.

Definition lex_compare (a b : Z * Z * Z) : comparison :=
  let '(a1, a2, a3) := a in
  let '(b1, b2, b3) := b in
  match a1 ?= b1 with
  | Eq => match a2 ?= b2 with
          | Eq => a3 ?= b3
          | c => c
          end
  | c => c
  end.

Definition lex_lt (a b : Z * Z * Z) : Prop :=
  let '(a1, a2, a3) := a in
  let '(b1, b2, b3) := b in
  a1 < b1 \/ (a1 = b1 /\ (a2 < b2 \/ (a2 = b2 /\ a3 < b3))).

(** [float(z)] does not overflow. *)
Definition fits_double (z : Z) : bool :=
  match float_of_int z with
  | Ok _ => true
  | Err _ => false
  end.

(** An observation with integer deaths and a non-zero integer total, both
    within the range of a double. *)
Definition integer_ratio (r : Region) : bool :=
  match Deaths r, TotalCases r with
  | FInt d, FInt t => negb (t =? 0) && fits_double d && fits_double t
  | _, _ => false
  end.

(** An observation of the given deaths and total; the other columns are
    not numeric. *)
Definition observation (name : string) (deaths total : field) : Region :=
  mkRegion "2020-06-15T17:00:00" name FNan FNan deaths total FNan.

(** ** Printing a [Region] *)

(** The character of a decimal digit. *)
Definition digit_char (d : Z) : ascii := ascii_of_N (Z.to_N (48 + d)).

(** The decimal digits of [n >= 0], most significant first.  Each round
    removes one digit, so a number below [2 ^ fuel] needs no more than
    [fuel] rounds. *)
Fixpoint decimal_digits (fuel : nat) (n : Z) : string :=
  match fuel with
  | O => EmptyString
  | S fuel' =>
      if n <? 10 then String (digit_char n) EmptyString
      else (decimal_digits fuel' (n / 10)
            ++ String (digit_char (n mod 10)) EmptyString)%string
  end.

(** [str(z)] for an [int]. *)
Definition py_str_int (z : Z) : string :=
  let fuel := S (Z.to_nat (Z.log2 (Z.abs z))) in
  if z <? 0 then String "-" (decimal_digits fuel (- z))
  else decimal_digits fuel z.

(** ['{}'.format(v)] for an attribute: the decimal text of an [int], the
    string ['nan'] as it is. *)
Definition field_str (f : field) : string :=
  match f with
  | FInt z => py_str_int z
  | FNan => "nan"
  end.

(** [Region.__str__]. *)
Definition Region_str (self : Region) : string :=
  ("Region: " ++ Name self ++ ", Total: " ++ field_str (TotalCases self)
   ++ ", Deaths: " ++ field_str (Deaths self)
   ++ ", Tests: " ++ field_str (Tests self))%string.

(** [Region.__repr__]. *)
Definition Region_repr (self : Region) : string := Region_str self.

(** ** Charts *)

(** What [getattr] gives for a data attribute: a [str] or an [int]. *)
Inductive pyvalue : Type :=
| VStr (s : string)
| VInt (z : Z).

Definition field_value (f : field) : pyvalue :=
  match f with
  | FInt z => VInt z
  | FNan => VStr "nan"
  end.

(** The data attributes of a [Region], the names the plotting functions
    are called with; other attribute names are outside the model. *)
Inductive attribute : Type :=
| ADate
| AName
| AICU
| ANewCases
| ADeaths
| ATotalCases
| ATests.

Definition attribute_name (attr : attribute) : string :=
  match attr with
  | ADate => "Date"
  | AName => "Name"
  | AICU => "ICU"
  | ANewCases => "NewCases"
  | ADeaths => "Deaths"
  | ATotalCases => "TotalCases"
  | ATests => "Tests"
  end.

Definition getattr (l : Region) (attr : attribute) : pyvalue :=
  match attr with
  | ADate => VStr (Date l)
  | AName => VStr (Name l)
  | AICU => field_value (ICU l)
  | ANewCases => field_value (NewCases l)
  | ADeaths => field_value (Deaths l)
  | ATotalCases => field_value (TotalCases l)
  | ATests => field_value (Tests l)
  end.

(** The calls made to the plotting library, in order, with their
    arguments. *)
Inductive plt_call : Type :=
| plt_bar (x : list string) (y : list float) (color : string)
| plt_plot (x : list string) (y : list pyvalue) (label : option string)
| plt_xticks (rotation : Z)
| plt_xlabel (s : string)
| plt_ylabel (s : string)
| plt_title (s : string)
| plt_legend
| plt_tight_layout
| plt_show.

(** [dict(items)]: the pairs are stored one after the other. *)
Definition dict_of_items {V : Type} (items : list (string * V)) : dict V :=
  fold_left (fun d kv => dict_set d (fst kv) (snd kv)) items [].

(** The comparison of two items by their value, [key = lambda x: x[1]]. *)
Definition value_lt (a b : string * float) : result bool :=
  Ok (float_lt (snd a) (snd b)).

Definition AveragePlot (D : dict float) : result (list plt_call) :=
  s <- sorted_reverse value_lt D ;;
  let Ds := dict_of_items s in
  let x := keys Ds in
  let y := map snd Ds in
  Ok [plt_bar x y "steelblue";
      plt_xticks 90;
      plt_xlabel "Regions";
      plt_ylabel "Daily average of new cases";
      plt_title "Daily average of new cases per region";
      plt_show].

(** The comprehension of the two timeline functions:
    [[(str2date(l.Date), getattr(l, attr)) for l in Ls if l.Name == n]]. *)
Definition timeline (Ls : list Region) (n : string) (attr : attribute)
  : list (string * pyvalue) :=
  map (fun l => (str2date (Date l), getattr l attr))
    (filter (fun l => String.eqb (Name l) n) Ls).

Definition TimelinePlot (Ls : list Region) (region : string)
  (attr : attribute) : list plt_call :=
  let t := timeline Ls region attr in
  let x := map fst t in
  let y := map snd t in
  [plt_plot x y None;
   plt_xticks 90;
   plt_title ("Timeline of " ++ attribute_name attr ++ " in " ++ region);
   plt_xlabel "Date";
   plt_ylabel (attribute_name attr);
   plt_show].

(** The calls that end [TimelineAll]. *)
Definition TimelineAll_finish (attr : attribute) : list plt_call :=
  [plt_title ("Timeline of " ++ attribute_name attr ++ " in each region");
   plt_xticks 90;
   plt_xlabel "Date";
   plt_ylabel (attribute_name attr);
   plt_legend;
   plt_tight_layout;
   plt_show].

Section TimelineAll.
(** The order in which a [set] built by adding the elements of a list is
    iterated: it depends on the hashes of the strings, so it is left
    open. *)
Variable set_iter : list string -> list string.

Definition TimelineAll (Ls : list Region) (attr : attribute)
  : result (list plt_call) :=
  let A := set_iter (map Name Ls) in
  let D := fold_left (fun D n => dict_set D n (timeline Ls n attr)) A [] in
  Cu <- ComputeAverage Ls ;;
  s <- sorted_reverse value_lt Cu ;;
  let Cs := dict_of_items (py_take 5 s) in
  plots <- mapM (fun k =>
                   series <- dict_getitem D k ;;
                   Ok (plt_plot (map fst series) (map snd series) (Some k)))
             (keys Cs) ;;
  Ok (plots ++ TimelineAll_finish attr).
End TimelineAll.

(** The text [s] with each newline written as carriage return and
    newline. *)
Fixpoint to_crlf (s : string) : string :=
  match s with
  | EmptyString => EmptyString
  | String c s' =>
      if Ascii.eqb c nl then String cr (String nl (to_crlf s'))
      else String c (to_crlf s')
  end.

(** No character of [s] is [c]. *)
Definition without (c : ascii) (s : string) : bool :=
  all_chars (fun x => negb (Ascii.eqb x c)) s.

(** A field with no comma and no line terminator inside. *)
Definition clean (s : string) : bool :=
  without comma s && without nl s && without cr s.

(** Items of a mapping ordered by value. *)
Definition value_ltb (a b : string * float) : bool :=
  float_lt (snd a) (snd b).

Definition value_number (a : string * float) : Prop :=
  is_nan (snd a) = false.

(** The value of [a] is at least that of [b]. *)
Definition value_ge (a b : string * float) : Prop :=
  SFleb (snd b) (snd a) = true.

(** The line that [TimelineAll] draws for the region [k]. *)
Definition region_plot (Ls : list Region) (attr : attribute) (k : string)
  : plt_call :=
  plt_plot (map fst (timeline Ls k attr)) (map snd (timeline Ls k attr))
    (Some k).

(** [TimelineAll] without the set of names and the mapping of the series:
    a line for each of the first five regions of the averages sorted from
    high to low. *)
Definition TimelineAll_lines (Ls : list Region) (attr : attribute)
  : result (list plt_call) :=
  Cu <- ComputeAverage Ls ;;
  s <- sorted_reverse value_lt Cu ;;
  Ok (map (fun kv => region_plot Ls attr (fst kv)) (py_take 5 s)
      ++ TimelineAll_finish attr).

(** * Properties *)

(** ** Strings *)

Lemma append_assoc (a b c : string) : ((a ++ b) ++ c = a ++ (b ++ c))%string.
Proof.
  induction a as [|x a IH]; simpl; [reflexivity|]. now rewrite IH.
Qed.

Lemma append_empty_r (a : string) : (a ++ "")%string = a.
Proof.
  induction a as [|x a IH]; simpl; [reflexivity|]. now rewrite IH.
Qed.

Lemma length_append (a b : string) :
  String.length (a ++ b) = (String.length a + String.length b)%nat.
Proof.
  induction a as [|x a IH]; simpl; [reflexivity|]. now rewrite IH.
Qed.

Lemma take_append (a b : string) : take (String.length a) (a ++ b) = a.
Proof.
  induction a as [|x a IH]; simpl.
  - now destruct b.
  - now rewrite IH.
Qed.

Lemma drop_append (a b : string) : drop (String.length a) (a ++ b) = b.
Proof.
  induction a as [|x a IH]; simpl; [reflexivity|]. exact IH.
Qed.

Lemma drop_drop (n m : nat) (s : string) : drop n (drop m s) = drop (m + n) s.
Proof.
  revert s; induction m as [|m IH]; intros s; simpl; [reflexivity|].
  destruct s as [|c s]; [now destruct n|]. apply IH.
Qed.

Lemma get_drop (n i : nat) (s : string) :
  String.get i (drop n s) = String.get (n + i) s.
Proof.
  revert s; induction n as [|n IH]; intros s; simpl; [reflexivity|].
  destruct s as [|c s]; [now destruct i|]. apply IH.
Qed.

Lemma get_take (n i : nat) (s : string) :
  String.get i (take n s) = if (i <? n)%nat then String.get i s else None.
Proof.
  revert i s; induction n as [|n IH]; intros i s; simpl.
  - now destruct i.
  - destruct s as [|c s]; simpl.
    + now destruct (i <? S n)%nat.
    + destruct i as [|i]; [reflexivity|]. apply IH.
Qed.

(** The characters of a slice are those of [s] from [a] up to [b]. *)
Lemma get_py_slice (s : string) (a b i : nat) :
  String.get i (py_slice s a b) =
  if (i <? b - a)%nat then String.get (a + i) s else None.
Proof.
  unfold py_slice. rewrite get_take, get_drop. reflexivity.
Qed.

(** ** Dates *)

(** C10: [str2date] gives a result for every string, also a short or an
    empty one: the three positional slices joined by dashes, each slice
    holding the characters of [s] that exist at its positions; the empty
    string gives ["--"]. *)
Theorem str2date_total : forall s : string,
  (exists year month day : string,
      str2date s = (year ++ "-" ++ month ++ "-" ++ day)%string
      /\ (forall i, String.get i year =
                    if (i <? 4)%nat then String.get i s else None)
      /\ (forall i, String.get i month =
                    if (i <? 2)%nat then String.get (5 + i) s else None)
      /\ (forall i, String.get i day =
                    if (i <? 2)%nat then String.get (8 + i) s else None))
  /\ str2date "" = "--".
Proof.
  intros s. split; [|reflexivity].
  exists (py_slice s 0 4), (py_slice s 5 7), (py_slice s 8 10).
  split; [reflexivity|].
  repeat split; intros i; apply get_py_slice.
Qed.

Lemma digits_n_length (n : nat) (s : string) :
  digits_n n s = true -> String.length s = n.
Proof.
  unfold digits_n. intros H. apply andb_prop in H. now apply Nat.eqb_eq.
Qed.

(** C8: [str2date "2020-06-15T18:00:00"] is ["2020-06-15"], and on every
    string of the form [YYYY-MM-DDThh:mm:ss] the result is the first ten
    characters, the [YYYY-MM-DD] part. *)
Theorem str2date_timestamp :
  str2date "2020-06-15T18:00:00" = "2020-06-15"
  /\ forall s : string, timestamp s -> str2date s = take 10 s.
Proof.
  split; [reflexivity|].
  intros s H. destruct H as [Y M D h m sec HY HM HD Hh Hm Hs].
  apply digits_n_length in HY, HM, HD.
  destruct Y as [|y1 [|y2 [|y3 [|y4 [|? ?]]]]]; try discriminate HY.
  destruct M as [|m1 [|m2 [|? ?]]]; try discriminate HM.
  destruct D as [|d1 [|d2 [|? ?]]]; try discriminate HD.
  reflexivity.
Qed.

Lemma str2date_timestamp_witness :
  timestamp "2020-06-15T18:00:00"
  /\ str2date "2020-06-15T18:00:00" = take 10 "2020-06-15T18:00:00".
Proof.
  assert (H : timestamp "2020-06-15T18:00:00")
    by (apply (timestamp_intro "2020" "06" "15" "18" "00" "00"); reflexivity).
  split; [exact H|].
  exact (proj2 str2date_timestamp "2020-06-15T18:00:00" H).
Defined.

(** ** Field coercion *)

Lemma space_not_digit (c : ascii) :
  is_space c = true ->
  digit_value c = None /\ is_underscore c = false
  /\ Ascii.eqb c "+" = false /\ Ascii.eqb c "-" = false.
Proof.
  destruct c as [[] [] [] [] [] [] [] []]; intros H;
    try discriminate H; repeat split; reflexivity.
Qed.

Lemma digit_not_sign (c : ascii) (d : Z) :
  digit_value c = Some d ->
  is_space c = false /\ is_underscore c = false
  /\ Ascii.eqb c "+" = false /\ Ascii.eqb c "-" = false.
Proof.
  destruct c as [[] [] [] [] [] [] [] []]; intros H;
    try discriminate H; repeat split; reflexivity.
Qed.

Lemma skip_spaces_append (ws t : string) :
  all_chars is_space ws = true -> starts_nonspace t ->
  skip_spaces (ws ++ t) = t.
Proof.
  intros Hws Ht. induction ws as [|c ws IH]; simpl in *.
  - destruct t as [|c t]; [reflexivity|]. simpl in *. now rewrite Ht.
  - apply andb_prop in Hws as [Hc Hws]. rewrite Hc. now apply IH.
Qed.



Lemma int_digits_head (ds : string) (v : Z) :
  int_digits ds v ->
  exists (c : ascii) (d : Z) (s : string),
    ds = String c s /\ digit_value c = Some d.
Proof.
  induction 1 as [c d Hd | s v c d _ (c0 & d0 & s0 & -> & Hd0) Hd
                 | s v c d _ (c0 & d0 & s0 & -> & Hd0) Hd].
  - now exists c, d, "".
  - simpl. now exists c0, d0, (s0 ++ String c "")%string.
  - simpl. now exists c0, d0, (s0 ++ String "_" (String c ""))%string.
Qed.

(** Scanning the digits [ds] continues the accumulated value by theirs. *)
Lemma scan_digits_append (ds : string) (v : Z) :
  int_digits ds v ->
  exists k : Z, forall (t : string) (acc : Z),
    scan_digits (ds ++ t) false acc = scan_digits t false (acc * k + v).
Proof.
  induction 1 as [c d Hd | s v c d _ [k IH] Hd | s v c d _ [k IH] Hd].
  - exists 10. intros t acc. cbn [scan_digits append]. rewrite Hd.
    f_equal. lia.
  - exists (10 * k). intros t acc. rewrite append_assoc, IH.
    cbn [scan_digits append]. rewrite Hd. f_equal. lia.
  - exists (10 * k). intros t acc. rewrite append_assoc, IH.
    cbn [scan_digits append]. rewrite Hd.
    replace (is_underscore "_") with true by reflexivity.
    replace (digit_value "_") with (@None Z) by reflexivity.
    cbn [scan_digits append]. f_equal. lia.
Qed.

Lemma scan_digits_blanks (ws : string) (v : Z) :
  all_chars is_space ws = true ->
  scan_digits ws false v = Some (v, ws).
Proof.
  destruct ws as [|c ws]; simpl; [reflexivity|]. intros H.
  apply andb_prop in H as [Hc _].
  destruct (space_not_digit c Hc) as (-> & -> & _). reflexivity.
Qed.


Lemma py_int_complete (s : string) (z : Z) :
  int_literal s z -> py_int s = Ok z.
Proof.
  intros H.
  assert (Hbody : forall (ds ws2 : string) (v : Z) (neg : bool),
             all_chars is_space ws2 = true -> int_digits ds v ->
             match (ds ++ ws2)%string with
             | String c _ =>
                 if is_digit c then
                   match scan_digits (ds ++ ws2) false 0 with
                   | Some (v, rest) =>
                       match skip_spaces rest with
                       | EmptyString => Ok (if neg then - v else v)
                       | String _ _ => Err ValueError
                       end
                   | None => Err ValueError
                   end
                 else Err ValueError
             | EmptyString => Err ValueError
             end = Ok (if neg then - v else v)).
  { intros ds ws2 v neg Hws Hds.
    destruct (scan_digits_append ds v Hds) as [k Hk].
    rewrite Hk, scan_digits_blanks by exact Hws. simpl.
    destruct (int_digits_head ds v Hds) as (c & d & s' & -> & Hd). simpl.
    unfold is_digit. rewrite Hd.
    rewrite <- (append_empty_r ws2) at 1.
    rewrite skip_spaces_append; [reflexivity | exact Hws | exact I]. }
  destruct H as [ws1 ds ws2 v H1 H2 Hds | ws1 ds ws2 v H1 H2 Hds
                | ws1 ds ws2 v H1 H2 Hds]; unfold py_int.
  - destruct (int_digits_head ds v Hds) as (c & d & s' & E & Hd).
    destruct (digit_not_sign c d Hd) as (Hsp & _ & Hplus & Hminus).
    rewrite skip_spaces_append; [|exact H1|subst ds; exact Hsp].
    unfold strip_sign. rewrite E at 1. simpl. rewrite Hplus, Hminus.
    exact (Hbody ds ws2 v false H2 Hds).
  - rewrite skip_spaces_append; [|exact H1|reflexivity].
    simpl. exact (Hbody ds ws2 v false H2 Hds).
  - rewrite skip_spaces_append; [|exact H1|reflexivity].
    simpl. exact (Hbody ds ws2 v true H2 Hds).
Qed.






(** ** Record construction *)

Lemma Region_init_ok (row : list string) :
  (17 <= List.length row)%nat -> exists r : Region, Region_init row = Ok r.
Proof.
  intros H.
  do 17 (destruct row as [|? row]; [simpl in H; lia|]).
  eexists. reflexivity.
Qed.

Lemma Region_init_short (row : list string) :
  (List.length row < 17)%nat -> Region_init row = Err IndexError.
Proof.
  intros H.
  do 17 (destruct row as [|? row]; [reflexivity|]).
  simpl in H. lia.
Qed.




(** ** Reading the files *)

Lemma mapM_map {A B C : Type} (g : A -> B) (f : B -> result C) (l : list A) :
  mapM f (map g l) = mapM (fun a => f (g a)) l.
Proof.
  induction l as [|a l IH]; simpl; [reflexivity|]. now rewrite IH.
Qed.

Lemma mapM_length {A B : Type} (f : A -> result B) (l : list A) :
  forall bs : list B, mapM f l = Ok bs -> List.length bs = List.length l.
Proof.
  induction l as [|a l IH]; simpl; intros bs H.
  - now injection H as <-.
  - destruct (f a) as [b|]; [simpl in H|discriminate].
    destruct (mapM f l) as [bs'|]; [simpl in H|discriminate].
    injection H as <-. simpl. now rewrite (IH bs').
Qed.

Lemma mapM_ok {A B : Type} (f : A -> result B) (l : list A) :
  Forall (fun a => exists b : B, f a = Ok b) l ->
  exists bs : list B, mapM f l = Ok bs.
Proof.
  induction 1 as [|a l [b Hb] _ [bs IH]]; simpl.
  - now exists [].
  - rewrite Hb, IH. simpl. now exists (b :: bs).
Qed.

Lemma Parse_loop_mapM (fh : list string) :
  forall Ls : list Region,
    Parse_loop fh Ls =
    (rs <- mapM (fun l => Region_init (split comma (remove_char nl l))) fh ;;
     Ok (Ls ++ rs)).
Proof.
  induction fh as [|l fh IH]; intros Ls; simpl.
  - now rewrite app_nil_r.
  - destruct (Region_init (split comma (remove_char nl l))) as [r|e];
      simpl; [|reflexivity].
    rewrite IH.
    destruct (mapM _ fh) as [rs|e]; simpl; [|reflexivity].
    now rewrite <- app_assoc.
Qed.

Lemma ParseFiles_loop_mapM (fs : filesystem) (names : list string) :
  forall Rs : list Region,
    ParseFiles_loop fs names Rs =
    (parts <- mapM (Parse fs) names ;; Ok (Rs ++ List.concat parts)).
Proof.
  induction names as [|n names IH]; intros Rs; simpl.
  - now rewrite app_nil_r.
  - destruct (Parse fs n) as [p|e]; simpl; [|reflexivity].
    rewrite IH.
    destruct (mapM (Parse fs) names) as [ps|e]; simpl; [|reflexivity].
    now rewrite <- app_assoc.
Qed.

(** C6: [ParseFiles] is the concatenation of what [Parse] gives for each
    file, in the order of the names and with the rows of each file in
    their order; it fails when one [Parse] fails.  Nothing is removed: two
    files, or twice the same file, give all the rows of both. *)
Theorem ParseFiles_concat : forall (fs : filesystem) (names : list string),
  ParseFiles fs names = (parts <- mapM (Parse fs) names ;; Ok (List.concat parts))
  /\ (forall (f1 f2 : string) (p1 p2 : list Region),
         Parse fs f1 = Ok p1 -> Parse fs f2 = Ok p2 ->
         ParseFiles fs [f1; f2] = Ok (p1 ++ p2)).
Proof.
  intros fs names. split.
  - unfold ParseFiles. now rewrite ParseFiles_loop_mapM.
  - intros f1 f2 p1 p2 H1 H2. unfold ParseFiles. simpl.
    rewrite H1. simpl. rewrite H2. reflexivity.
Qed.

Lemma ParseFiles_concat_witness :
  let fs := one_file "a.csv" (file_lines [sample_header; sample_row] true) in
  exists p : list Region,
    Parse fs "a.csv" = Ok p
    /\ ParseFiles fs ["a.csv"; "a.csv"] = Ok (p ++ p)
    /\ List.length (p ++ p) = 2%nat.
Proof.
  intros fs. eexists. split; [vm_compute; reflexivity|]. split.
  - apply (proj2 (ParseFiles_concat fs [])); vm_compute; reflexivity.
  - reflexivity.
Defined.

Lemma all_chars_append (p : ascii -> bool) (a b : string) :
  all_chars p (a ++ b) = all_chars p a && all_chars p b.
Proof.
  induction a as [|c a IH]; simpl; [reflexivity|].
  now rewrite IH, andb_assoc.
Qed.

Lemma plain_line_cons (c : ascii) (l : string) :
  plain_line (String c l) = true ->
  Ascii.eqb c nl = false /\ Ascii.eqb c cr = false /\ plain_line l = true.
Proof.
  unfold plain_line. simpl. intros H. apply andb_prop in H as [Hc Hl].
  apply negb_true_iff, orb_false_iff in Hc. tauto.
Qed.

Lemma universal_newlines_plain (l rest : string) :
  plain_line l = true ->
  universal_newlines (l ++ rest) = (l ++ universal_newlines rest)%string.
Proof.
  induction l as [|c l IH]; intros H; [reflexivity|].
  apply plain_line_cons in H as (_ & Hcr & Hl).
  cbn [append universal_newlines]. rewrite Hcr. now rewrite IH.
Qed.

Lemma universal_newlines_file (ls : list string) (b : bool) :
  Forall (fun l => plain_line l = true) ls ->
  universal_newlines (file_lines ls b) = file_lines ls b.
Proof.
  induction 1 as [|l ls Hl Hls IH]; [reflexivity|].
  cbn [file_lines]. destruct ls as [|l' ls].
  - destruct b.
    + now rewrite universal_newlines_plain.
    + rewrite <- (append_empty_r l).
      now rewrite universal_newlines_plain.
  - rewrite universal_newlines_plain by exact Hl.
    cbn [universal_newlines]. replace (Ascii.eqb nl cr) with false
      by reflexivity. now rewrite IH.
Qed.

Lemma lines_keepends_cons (l rest : string) :
  plain_line l = true ->
  lines_keepends (l ++ String nl rest) =
  (l ++ String nl "")%string :: lines_keepends rest.
Proof.
  induction l as [|c l IH]; intros H.
  - reflexivity.
  - apply plain_line_cons in H as (Hnl & _ & Hl).
    cbn [append lines_keepends]. rewrite Hnl, (IH Hl). reflexivity.
Qed.

Lemma lines_keepends_last (l : string) :
  plain_line l = true -> l <> "" -> lines_keepends l = [l].
Proof.
  induction l as [|c l IH]; intros H Hne; [congruence|].
  apply plain_line_cons in H as (Hnl & _ & Hl).
  cbn [lines_keepends]. rewrite Hnl.
  destruct l as [|c' l]; [reflexivity|].
  rewrite IH; [reflexivity | exact Hl | discriminate].
Qed.

Lemma remove_nl_plain (l rest : string) :
  plain_line l = true ->
  remove_char nl (l ++ rest) = (l ++ remove_char nl rest)%string.
Proof.
  induction l as [|c l IH]; intros H; [reflexivity|].
  apply plain_line_cons in H as (Hnl & _ & Hl).
  cbn [append remove_char]. rewrite Hnl. now rewrite IH.
Qed.

(** The lines read from a file of non-empty lines are those lines. *)
Lemma lines_of_file (ls : list string) (b : bool) :
  Forall (fun l => plain_line l = true /\ l <> "") ls ->
  map (remove_char nl) (lines_keepends (file_lines ls b)) = ls.
Proof.
  induction 1 as [|l ls [Hl Hne] Hls IH]; [reflexivity|].
  cbn [file_lines]. destruct ls as [|l' ls].
  - destruct b.
    + rewrite lines_keepends_cons by exact Hl. simpl.
      rewrite remove_nl_plain by exact Hl. simpl.
      now rewrite append_empty_r.
    + rewrite lines_keepends_last by assumption. simpl.
      rewrite <- (append_empty_r l) at 1.
      rewrite remove_nl_plain by exact Hl. simpl.
      now rewrite append_empty_r.
  - rewrite lines_keepends_cons by exact Hl. cbn [map]. rewrite IH.
    rewrite remove_nl_plain by exact Hl. simpl.
    now rewrite append_empty_r.
Qed.

(** What is left of the file once the header line is read. *)
Lemma lines_after_header (header : string) (rows : list string) (b : bool) :
  plain_line header = true ->
  tl (lines_keepends (file_lines (header :: rows) b)) =
  lines_keepends (file_lines rows b).
Proof.
  intros Hh. cbn [file_lines]. destruct rows as [|r rows].
  - destruct b.
    + now rewrite lines_keepends_cons.
    + destruct header as [|c h]; [reflexivity|].
      now rewrite lines_keepends_last.
  - now rewrite lines_keepends_cons.
Qed.

Lemma full_row_nonempty (r : string) : full_row r = true -> r <> "".
Proof.
  intros H ->. discriminate H.
Qed.

(** C5, as the code has it: for a file of one header line followed by [k]
    data rows that each have the 17 columns [Region] reads, [Parse] skips
    the header and gives exactly [k] objects, the [i]-th built from the
    fields of the [i]-th row. *)
Theorem Parse_rows :
  forall (fs : filesystem) (filename header : string) (rows : list string)
         (final_newline : bool),
    fs filename = Ok (file_lines (header :: rows) final_newline) ->
    plain_line header = true ->
    Forall (fun r => plain_line r = true) rows ->
    Forall (fun r => full_row r = true) rows ->
    exists Ls : list Region,
      Parse fs filename = Ok Ls
      /\ List.length Ls = List.length rows
      /\ mapM (fun r => Region_init (split comma r)) rows = Ok Ls.
Proof.
  intros fs filename header rows b Hfs Hh Hplain Hfull.
  assert (Hlines : Forall (fun l => plain_line l = true /\ l <> "") rows).
  { rewrite Forall_forall in *. intros r Hr. split; [now apply Hplain|].
    apply full_row_nonempty. now apply Hfull. }
  destruct (mapM_ok (fun r => Region_init (split comma r)) rows) as [Ls HLs].
  { rewrite Forall_forall in *. intros r Hr. apply Region_init_ok.
    apply Nat.leb_le. exact (Hfull r Hr). }
  exists Ls. split; [|split; [exact (mapM_length _ _ _ HLs)|exact HLs]].
  unfold Parse. rewrite Hfs. cbn [bind].
  rewrite universal_newlines_file by (constructor; assumption).
  rewrite lines_after_header by exact Hh.
  rewrite Parse_loop_mapM.
  rewrite <- (mapM_map (remove_char nl)
                (fun l => Region_init (split comma l))).
  rewrite lines_of_file by exact Hlines.
  rewrite HLs. reflexivity.
Qed.

Lemma Parse_rows_witness :
  exists Ls : list Region,
    Parse (one_file "a.csv" (file_lines [sample_header; sample_row] false))
      "a.csv" = Ok Ls
    /\ List.length Ls = 1%nat.
Proof.
  destruct (Parse_rows
              (one_file "a.csv" (file_lines [sample_header; sample_row] false))
              "a.csv" sample_header [sample_row] false)
    as (Ls & H & Hlen & _).
  - reflexivity.
  - vm_compute. reflexivity.
  - repeat constructor.
  - repeat constructor.
  - exists Ls. split; [exact H | exact Hlen].
Defined.

(** C5 as stated fails: a file whose one data row has two fields gives no
    object, [Parse] raises [IndexError]. *)
Lemma Parse_short_row :
  Parse (one_file "a.csv"
           (file_lines ["data,stato"; "2020-06-15T17:00:00,ITA"] true))
    "a.csv" = Err IndexError.
Proof.
  vm_compute. reflexivity.
Qed.

(** ** Averaging *)

Lemma dict_find_set {V : Type} (d : dict V) (k k' : string) (v : V) :
  dict_find (dict_set d k v) k' =
  if String.eqb k k' then Some v else dict_find d k'.
Proof.
  induction d as [|[k0 v0] d IH]; simpl.
  - reflexivity.
  - destruct (String.eqb k0 k) eqn:E0; simpl.
    + apply String.eqb_eq in E0. subst k0.
      destruct (String.eqb k k'); reflexivity.
    + destruct (String.eqb k0 k') eqn:E1; [|exact IH].
      apply String.eqb_eq in E1. subst k0.
      rewrite String.eqb_sym in E0. now rewrite E0.
Qed.

Lemma dict_get_set {V : Type} (d : dict V) (k k' : string) (v default : V) :
  dict_get (dict_set d k v) k' default =
  if String.eqb k k' then v else dict_get d k' default.
Proof.
  unfold dict_get. rewrite dict_find_set. now destruct (String.eqb k k').
Qed.

Lemma keys_dict_set {V : Type} (d : dict V) (k : string) (v : V) :
  keys (dict_set d k v) = add_name (keys d) k.
Proof.
  induction d as [|[k0 v0] d IH]; simpl; [reflexivity|].
  destruct (String.eqb k0 k) eqn:E; simpl.
  - apply String.eqb_eq in E. now subst k0.
  - f_equal. exact IH.
Qed.

Lemma dict_find_keys {V : Type} (d : dict V) (k : string) :
  In k (keys d) <-> exists v : V, dict_find d k = Some v.
Proof.
  induction d as [|[k0 v0] d IH]; simpl.
  - split; [tauto | intros [v H]; discriminate].
  - destruct (String.eqb k0 k) eqn:E.
    + apply String.eqb_eq in E. split; [now exists v0 | now left].
    + apply String.eqb_neq in E. rewrite <- IH. tauto.
Qed.

Lemma dict_find_entry {V : Type} (d : dict V) (k : string) (v : V) :
  NoDup (keys d) -> In (k, v) d -> dict_find d k = Some v.
Proof.
  induction d as [|[k0 v0] d IH]; simpl; intros Hnd Hin; [tauto|].
  inversion Hnd as [|? ? Hk0 Hnd']; subst.
  destruct Hin as [E|Hin].
  - injection E as -> ->. now rewrite String.eqb_refl.
  - destruct (String.eqb k0 k) eqn:E; [|now apply IH].
    apply String.eqb_eq in E. subst k0. exfalso. apply Hk0.
    change k with (fst (k, v)). now apply in_map.
Qed.

Lemma in_add_name (ks : list string) (k k' : string) :
  In k' (add_name ks k) <-> In k' ks \/ k' = k.
Proof.
  induction ks as [|k0 ks IH]; simpl.
  - intuition congruence.
  - destruct (String.eqb k0 k) eqn:E; simpl.
    + apply String.eqb_eq in E. intuition congruence.
    + rewrite IH. tauto.
Qed.

Lemma NoDup_add_name (ks : list string) (k : string) :
  NoDup ks -> NoDup (add_name ks k).
Proof.
  induction 1 as [|k0 ks Hk0 Hnd IH]; simpl.
  - repeat constructor. tauto.
  - destruct (String.eqb k0 k) eqn:E; [now constructor|].
    apply String.eqb_neq in E. constructor; [|exact IH].
    rewrite in_add_name. intuition congruence.
Qed.

Lemma fold_add_name (names ks : list string) :
  NoDup ks ->
  NoDup (fold_left add_name names ks)
  /\ forall k, In k (fold_left add_name names ks) <-> In k ks \/ In k names.
Proof.
  revert ks. induction names as [|n names IH]; intros ks Hnd; simpl.
  - split; [exact Hnd | tauto].
  - destruct (IH (add_name ks n) (NoDup_add_name ks n Hnd)) as [H1 H2].
    split; [exact H1|]. intros k. rewrite H2, in_add_name.
    intuition congruence.
Qed.

(** The names of the mapping: each region of the input once. *)
Lemma distinct_names_spec (Ls : list Region) :
  NoDup (distinct_names Ls)
  /\ forall name, In name (distinct_names Ls) <-> In name (map Name Ls).
Proof.
  destruct (fold_add_name (map Name Ls) [] (NoDup_nil _)) as [H1 H2].
  split; [exact H1|]. intros name. unfold distinct_names. rewrite H2.
  simpl. tauto.
Qed.

Lemma Forall_dict_set {V : Type} (P : string * V -> Prop) (d : dict V)
  (k : string) (v : V) :
  Forall P d -> P (k, v) -> Forall P (dict_set d k v).
Proof.
  intros Hd Hkv. induction Hd as [|[k0 v0] d H0 Hd IH]; simpl.
  - now repeat constructor.
  - destruct (String.eqb k0 k); now constructor.
Qed.

Lemma dict_find_positive (C : dict Z) (k : string) (c : Z) :
  Forall (fun kv => 1 <= snd kv) C -> dict_find C k = Some c -> 1 <= c.
Proof.
  induction 1 as [|[k0 v0] C H0 HC IH]; simpl; [discriminate|].
  destruct (String.eqb k0 k); [|exact IH].
  intros E. injection E as <-. exact H0.
Qed.

(** The two mappings of the first loop have the same keys, and the counts
    are positive, whenever the loop is entered with such mappings. *)
Lemma accumulate_invariant (Ls : list Region) :
  forall D C : dict Z,
    keys D = keys C -> Forall (fun kv => 1 <= snd kv) C ->
    match accumulate Ls D C with
    | Ok (D', C') => keys D' = keys C' /\ Forall (fun kv => 1 <= snd kv) C'
    | Err e => e = TypeError
    end.
Proof.
  induction Ls as [|l Ls IH]; intros D C Hk Hc; simpl; [now split|].
  destruct (NewCases l) as [z|]; simpl; [|reflexivity].
  apply IH.
  - now rewrite !keys_dict_set, Hk.
  - apply Forall_dict_set; [exact Hc|]. simpl. unfold dict_get.
    destruct (dict_find C (Name l)) as [c|] eqn:E; [|lia].
    pose proof (dict_find_positive C (Name l) c Hc E). lia.
Qed.

Lemma int_truediv_positive (s c : Z) :
  1 <= c ->
  (exists q : float, int_truediv s c = Ok q)
  \/ int_truediv s c = Err OverflowError.
Proof.
  intros Hc. unfold int_truediv.
  destruct (c =? 0) eqn:E; [apply Z.eqb_eq in E; lia|].
  destruct (s =? 0); [left; eauto|].
  destruct (SFdiv prec emax (exact_int s) (exact_int c)); eauto.
Qed.

Lemma averages_no_zero_division (entries C : dict Z) :
  (forall name, In name (keys entries) -> In name (keys C)) ->
  Forall (fun kv => 1 <= snd kv) C ->
  (exists R : dict float, averages entries C = Ok R)
  \/ averages entries C = Err OverflowError.
Proof.
  intros Hk Hc. induction entries as [|[name s] entries IH]; simpl.
  - left. eauto.
  - assert (Hname : exists c, dict_find C name = Some c /\ 1 <= c).
    { destruct (proj1 (dict_find_keys C name)) as [c Hfind];
        [apply Hk; now left|].
      exists c. split; [exact Hfind|].
      exact (dict_find_positive C name c Hc Hfind). }
    destruct Hname as (c & Hfind & Hc1).
    unfold dict_getitem. rewrite Hfind. cbn [bind].
    destruct (int_truediv_positive s c Hc1) as [[q ->] | ->];
      [cbn [bind] | now right].
    destruct IH as [[R ->] | ->].
    + intros n Hn. apply Hk. now right.
    + left. simpl. eauto.
    + now right.
Qed.

(** C9: after the first loop of [ComputeAverage], whatever the input and
    however far the loop got, the sums and the counts have the same keys
    and every count is at least 1; the division of the second loop
    therefore never fails on a zero or a missing count. *)
Theorem ComputeAverage_counts : forall Ls : list Region,
  match accumulate Ls [] [] with
  | Ok (D, C) => keys D = keys C /\ Forall (fun kv => 1 <= snd kv) C
  | Err e => e = TypeError
  end
  /\ ComputeAverage Ls <> Err ZeroDivisionError
  /\ ComputeAverage Ls <> Err KeyError.
Proof.
  intros Ls.
  pose proof (accumulate_invariant Ls [] [] eq_refl (Forall_nil _)) as H.
  split; [exact H|].
  unfold ComputeAverage.
  destruct (accumulate Ls [] []) as [[D C]|e]; cbn [bind].
  - destruct H as [Hk Hc].
    destruct (averages_no_zero_division D C) as [[R ->] | ->];
      [now rewrite Hk | exact Hc | split; discriminate
      | split; discriminate].
  - subst e. split; discriminate.
Qed.

Lemma ComputeAverage_counts_witness :
  ComputeAverage (new_cases "Lazio" [10; 20]) <> Err ZeroDivisionError.
Proof.
  exact (proj1 (proj2 (ComputeAverage_counts (new_cases "Lazio" [10; 20])))).
Defined.

Lemma mapM_ext {A B : Type} (f g : A -> result B) (l : list A) :
  (forall a, f a = g a) -> mapM f l = mapM g l.
Proof.
  intros H. induction l as [|a l IH]; simpl; [reflexivity|].
  now rewrite H, IH.
Qed.

Lemma sum_app (a b : list Z) : sum (a ++ b) = sum a + sum b.
Proof.
  induction a as [|x a IH]; simpl; [reflexivity|].
  unfold sum in *. simpl. rewrite IH. lia.
Qed.

(** The first loop on integer new cases: the keys are the names in the
    order of their first occurrence, and each region has the sum and the
    number of its new-case counts added to what it had. *)
Lemma accumulate_ints (Ls : list Region) :
  Forall (fun l => int_new_cases l = true) Ls ->
  forall D C : dict Z,
    exists D' C' : dict Z,
      accumulate Ls D C = Ok (D', C')
      /\ keys D' = fold_left add_name (map Name Ls) (keys D)
      /\ keys C' = fold_left add_name (map Name Ls) (keys C)
      /\ (forall k, dict_get D' k 0 =
                    dict_get D k 0 + sum (new_cases_of k Ls))
      /\ (forall k, dict_get C' k 0 =
                    dict_get C k 0
                    + Z.of_nat (List.length (new_cases_of k Ls))).
Proof.
  induction 1 as [|l Ls Hl HLs IH]; intros D C.
  - exists D, C. simpl. repeat split; intros; lia.
  - unfold int_new_cases in Hl.
    destruct (NewCases l) as [z|] eqn:Hz; [|discriminate].
    cbn [accumulate]. rewrite Hz. cbn [int_add bind].
    destruct (IH (dict_set D (Name l) (dict_get D (Name l) 0 + z))
                 (dict_set C (Name l) (dict_get C (Name l) 0 + 1)))
      as (D' & C' & Hacc & HkD & HkC & HD & HC).
    exists D', C'. split; [exact Hacc|].
    rewrite keys_dict_set in HkD, HkC.
    split; [exact HkD|]. split; [exact HkC|].
    split; intros k.
    + rewrite HD, dict_get_set. unfold new_cases_of. cbn [flat_map].
      fold (new_cases_of k Ls). rewrite Hz, sum_app.
      destruct (String.eqb (Name l) k) eqn:E.
      * apply String.eqb_eq in E. rewrite E. unfold sum at 2. simpl. lia.
      * unfold sum at 2. simpl. lia.
    + rewrite HC, dict_get_set. unfold new_cases_of. cbn [flat_map].
      fold (new_cases_of k Ls). rewrite Hz, length_app.
      destruct (String.eqb (Name l) k) eqn:E.
      * apply String.eqb_eq in E. rewrite E. simpl List.length. lia.
      * simpl List.length. lia.
Qed.

Lemma averages_mapM (S N : string -> Z) (C : dict Z) (entries : dict Z) :
  (forall name s, In (name, s) entries -> s = S name) ->
  (forall name, In name (keys entries) -> dict_find C name = Some (N name)) ->
  averages entries C =
  mapM (fun name => q <- int_truediv (S name) (N name) ;;
                    Ok (name, py_round2 q)) (keys entries).
Proof.
  induction entries as [|[name s] entries IH]; intros HS HN; simpl;
    [reflexivity|].
  unfold dict_getitem. rewrite (HN name) by now left. cbn [bind].
  rewrite (HS name s) by now left.
  rewrite IH.
  - now destruct (int_truediv (S name) (N name)).
  - intros n s' Hin. apply HS. now right.
  - intros n Hin. apply HN. now right.
Qed.

Lemma mapM_pairs {V : Type} (f : string -> result V) (names : list string) :
  forall D : dict V,
    mapM (fun name => a <- f name ;; Ok (name, a)) names = Ok D ->
    keys D = names /\ Forall (fun kv => f (fst kv) = Ok (snd kv)) D.
Proof.
  induction names as [|n names IH]; simpl; intros D H.
  - injection H as <-. now split.
  - destruct (f n) as [a|] eqn:Hn; [cbn [bind] in H|discriminate].
    destruct (mapM _ names) as [D'|]; [cbn [bind] in H|discriminate].
    injection H as <-. destruct (IH D' eq_refl) as [Hk HF].
    split; [simpl; now rewrite Hk|]. now constructor.
Qed.

(** [ComputeAverage] on integer new cases is the mapping of each region,
    in the order of first occurrence, to its rounded mean. *)
Lemma ComputeAverage_region_averages (Ls : list Region) :
  Forall (fun l => int_new_cases l = true) Ls ->
  ComputeAverage Ls = region_averages Ls.
Proof.
  intros Hint. unfold ComputeAverage, region_averages.
  destruct (accumulate_ints Ls Hint [] [])
    as (D & C & -> & HkD & HkC & HD & HC).
  cbn [bind]. simpl keys in HkD, HkC.
  destruct (distinct_names_spec Ls) as [Hnd _].
  fold (distinct_names Ls) in HkD, HkC.
  rewrite (averages_mapM
             (fun name => sum (new_cases_of name Ls))
             (fun name => Z.of_nat (List.length (new_cases_of name Ls)))).
  - rewrite HkD. apply mapM_ext. intros name. unfold group_average.
    now destruct (int_truediv _ _).
  - intros name s Hin.
    assert (E : dict_find D name = Some s)
      by (apply dict_find_entry; [now rewrite HkD | exact Hin]).
    specialize (HD name). unfold dict_get in HD. rewrite E in HD.
    simpl in HD. exact HD.
  - intros name Hin. rewrite HkD, <- HkC in Hin.
    apply dict_find_keys in Hin as [c E].
    specialize (HC name). unfold dict_get in HC. rewrite E in HC.
    simpl in HC. now rewrite E, HC.
Qed.

(** Rounding to the nearest integer, ties to even. *)
Lemma div_half_even_nearest (num den : Z) :
  0 <= num -> 0 < den ->
  2 * Z.abs (num - div_half_even num den * den) <= den
  /\ (2 * Z.abs (num - div_half_even num den * den) = den ->
      Z.even (div_half_even num den) = true).
Proof.
  intros Hnum Hden. unfold div_half_even.
  pose proof (Z.div_mod num den ltac:(lia)) as Hdm.
  pose proof (Z.mod_pos_bound num den Hden) as Hr.
  remember (num / den) as q. remember (num mod den) as r.
  destruct (Z.compare_spec (2 * r) den) as [E|E|E].
  - destruct (Z.even q) eqn:Hq.
    + split; [nia | intros _; exact Hq].
    + split; [nia|]. intros _. rewrite Z.even_add, Hq. reflexivity.
  - split; [nia | nia].
  - split; [nia | nia].
Qed.

Lemma hundredths_nearest (m : positive) (e : Z) :
  e < 0 ->
  2 * Z.abs (Z.pos m * 100 - hundredths m e * 2 ^ (- e)) <= 2 ^ (- e)
  /\ (2 * Z.abs (Z.pos m * 100 - hundredths m e * 2 ^ (- e)) = 2 ^ (- e) ->
      Z.even (hundredths m e) = true).
Proof.
  intros He. unfold hundredths.
  destruct (0 <=? e) eqn:E; [apply Z.leb_le in E; lia|].
  apply div_half_even_nearest; [lia|].
  apply Z.pow_pos_nonneg; lia.
Qed.

Lemma new_cases_of_nonempty (Ls : list Region) (name : string) :
  Forall (fun l => int_new_cases l = true) Ls ->
  In name (map Name Ls) ->
  (1 <= List.length (new_cases_of name Ls))%nat.
Proof.
  induction 1 as [|l Ls Hl HLs IH]; simpl; [tauto|].
  unfold new_cases_of. cbn [flat_map]. fold (new_cases_of name Ls).
  rewrite length_app. intros [E|Hin].
  - rewrite E, String.eqb_refl. unfold int_new_cases in Hl.
    destruct (NewCases l); [simpl; lia | discriminate].
  - specialize (IH Hin). lia.
Qed.

(** C3, as the code has it.  A region with new cases [2, 4, 6] gets
    [4.0], with [1, 2] it gets [1.5], with [1, 1, 2] it gets [1.33].  On
    every sequence of observations whose new-case counts are all integers,
    [ComputeAverage] is the mapping of each distinct region name to
    [round(sum / count, 2)]: the quotient is the double nearest to the
    mean, and the rounding takes the exact value of that double to the
    nearest hundredth, ties to even.  The call returns this mapping when
    no quotient exceeds the range of a double. *)
Theorem ComputeAverage_spec :
  (ComputeAverage (new_cases "Lazio" [2; 4; 6]) = Ok [("Lazio", decimal2 400)]
   /\ ComputeAverage (new_cases "Lazio" [1; 2]) = Ok [("Lazio", decimal2 150)]
   /\ ComputeAverage (new_cases "Lazio" [1; 1; 2]) =
      Ok [("Lazio", decimal2 133)])
  /\ (forall (m : positive) (e : Z),
         e < 0 ->
         2 * Z.abs (Z.pos m * 100 - hundredths m e * 2 ^ (- e)) <= 2 ^ (- e)
         /\ (2 * Z.abs (Z.pos m * 100 - hundredths m e * 2 ^ (- e))
             = 2 ^ (- e) ->
             Z.even (hundredths m e) = true))
  /\ forall Ls : list Region,
      Forall (fun l => int_new_cases l = true) Ls ->
      ComputeAverage Ls = region_averages Ls
      /\ NoDup (distinct_names Ls)
      /\ (forall name, In name (distinct_names Ls) <-> In name (map Name Ls))
      /\ (Forall (fun name => group_average Ls name <> Err OverflowError)
            (distinct_names Ls) ->
          exists D : dict float,
            ComputeAverage Ls = Ok D
            /\ keys D = distinct_names Ls
            /\ forall name, In name (map Name Ls) ->
                 exists a : float,
                   group_average Ls name = Ok a
                   /\ dict_find D name = Some a).
Proof.
  split; [repeat split; vm_compute; reflexivity|].
  split; [exact hundredths_nearest|].
  intros Ls Hint.
  pose proof (ComputeAverage_region_averages Ls Hint) as Heq.
  destruct (distinct_names_spec Ls) as [Hnd Hin].
  split; [exact Heq|]. split; [exact Hnd|]. split; [exact Hin|].
  intros Hfit.
  assert (Hok : exists D : dict float, region_averages Ls = Ok D).
  { unfold region_averages. apply mapM_ok.
    rewrite Forall_forall in Hfit. apply Forall_forall. intros name Hname.
    specialize (Hfit name Hname). unfold group_average in *.
    assert (Hc : 1 <= Z.of_nat (List.length (new_cases_of name Ls))).
    { pose proof (new_cases_of_nonempty Ls name Hint
                    (proj1 (Hin name) Hname)). lia. }
    destruct (int_truediv_positive (sum (new_cases_of name Ls)) _ Hc)
      as [[q Hq] | Hq].
    - rewrite Hq. cbn [bind]. eauto.
    - rewrite Hq in Hfit. now destruct Hfit. }
  destruct Hok as [D HD]. exists D. rewrite Heq.
  split; [exact HD|].
  destruct (mapM_pairs (group_average Ls) (distinct_names Ls) D HD)
    as [Hk HF].
  split; [exact Hk|].
  intros name Hname. apply Hin in Hname. rewrite <- Hk in Hname.
  unfold keys in Hname. apply in_map_iff in Hname as ([k a] & E & Hka).
  simpl in E. subst k. exists a. split.
  - rewrite Forall_forall in HF. exact (HF (name, a) Hka).
  - apply dict_find_entry; [now rewrite Hk | exact Hka].
Qed.

Lemma ComputeAverage_spec_witness :
  ComputeAverage (new_cases "Lazio" [10; 20]) =
  region_averages (new_cases "Lazio" [10; 20])
  /\ ComputeAverage (new_cases "Lazio" [10; 20]) =
     Ok [("Lazio", decimal2 1500)].
Proof.
  split; [|vm_compute; reflexivity].
  apply (proj2 (proj2 ComputeAverage_spec) (new_cases "Lazio" [10; 20])).
  repeat constructor.
Defined.

(** C3 as stated fails: an observation whose new-case column is empty
    holds ['nan'], and the sum raises [TypeError] instead of giving a
    mapping. *)
Lemma ComputeAverage_nan :
  exists r : Region,
    Region_init (csv_row "2020-06-15T17:00:00" "Lazio" "41" "7928" ""
                   "807" "321815") = Ok r
    /\ ComputeAverage [r] = Err TypeError.
Proof.
  eexists. split; reflexivity.
Qed.

(** The rounding is that of the double, not of the exact mean: 40
    observations with one new case in all have the mean 0.025, halfway
    between 0.02 and 0.03; the double nearest to 0.025 lies above it, and
    the result is [0.03], where rounding the exact mean to even gives
    2 hundredths. *)
Lemma ComputeAverage_rounds_the_double :
  ComputeAverage (new_cases "Lazio" (1 :: repeat 0 39)) =
  Ok [("Lazio", decimal2 3)]
  /\ div_half_even (100 * 1) 40 = 2.
Proof.
  split; vm_compute; reflexivity.
Qed.

(** ** Sorting: which comparisons are made *)

Section ListSortRaises.
Context {A : Type}.
Variable lt : A -> A -> result bool.

(** [defined a]: comparing [a] can give a result. *)
Variable defined : A -> Prop.
Hypothesis lt_defined :
  forall (a b : A) (c : bool), lt a b = Ok c -> defined a /\ defined b.





End ListSortRaises.

(** ** Sorting: where an exception comes from *)

Section ListSortErrors.
Context {A : Type}.
Variable lt : A -> A -> result bool.

(** The elements of the list being sorted. *)
Variable L : list A.

Lemma run_ascending_error (l : list A) :
  forall (prev : A) (n : nat) (e : exn),
    In prev L -> incl l L ->
    run_ascending lt prev l n = Err e -> raised_by lt L e.
Proof.
  induction l as [|x l IH]; intros prev n e Hp Hl H; simpl in H;
    [discriminate|].
  assert (Hx : In x L) by (apply Hl; now left).
  destruct (lt x prev) as [c|e'] eqn:Hc; cbn [bind] in H.
  - destruct c; [discriminate|].
    apply (IH x (S n) e Hx); [|exact H].
    intros y Hy. apply Hl. now right.
  - injection H as <-. now exists x, prev.
Qed.

Lemma run_descending_error (l : list A) :
  forall (prev : A) (n : nat) (e : exn),
    In prev L -> incl l L ->
    run_descending lt prev l n = Err e -> raised_by lt L e.
Proof.
  induction l as [|x l IH]; intros prev n e Hp Hl H; simpl in H;
    [discriminate|].
  assert (Hx : In x L) by (apply Hl; now left).
  destruct (lt x prev) as [c|e'] eqn:Hc; cbn [bind] in H.
  - destruct c; [|discriminate].
    apply (IH x (S n) e Hx); [|exact H].
    intros y Hy. apply Hl. now right.
  - injection H as <-. now exists x, prev.
Qed.

Lemma count_run_error (l : list A) (e : exn) :
  incl l L -> count_run lt l = Err e -> raised_by lt L e.
Proof.
  destruct l as [|x0 [|x1 l]]; simpl; intros Hl H; try discriminate.
  assert (H0 : In x0 L) by (apply Hl; now left).
  assert (H1 : In x1 L) by (apply Hl; right; now left).
  assert (Hl' : incl l L) by (intros y Hy; apply Hl; right; now right).
  destruct (lt x1 x0) as [c|e'] eqn:Hc; cbn [bind] in H.
  - destruct c.
    + destruct (run_descending lt x1 l 2) as [m|e'] eqn:Hm;
        cbn [bind] in H; [discriminate|]. injection H as <-.
      exact (run_descending_error l x1 2 e' H1 Hl' Hm).
    + destruct (run_ascending lt x1 l 2) as [m|e'] eqn:Hm;
        cbn [bind] in H; [discriminate|]. injection H as <-.
      exact (run_ascending_error l x1 2 e' H1 Hl' Hm).
  - injection H as <-. now exists x1, x0.
Qed.

Lemma bisect_error (fuel : nat) :
  forall (pivot : A) (a : list A) (l r : nat) (e : exn),
    In pivot L -> incl a L ->
    bisect lt fuel pivot a l r = Err e -> raised_by lt L e.
Proof.
  induction fuel as [|fuel IH]; intros pivot a l r e Hp Ha H;
    simpl in H; [discriminate|].
  destruct (lt pivot _) as [c|e'] eqn:Hc; cbn [bind] in H.
  - destruct c.
    + destruct (l <? _)%nat; [|discriminate]. exact (IH _ _ _ _ _ Hp Ha H).
    + destruct (S _ <? r)%nat; [|discriminate].
      exact (IH _ _ _ _ _ Hp Ha H).
  - injection H as <-. exists pivot, (nth (l + Nat.div2 (r - l)) a pivot).
    split; [exact Hp|]. split; [|exact Hc].
    destruct (nth_in_or_default (l + Nat.div2 (r - l)) a pivot) as [Hin|E].
    + now apply Ha.
    + now rewrite E.
Qed.

Lemma incl_insert_at (k : nat) (x : A) (a : list A) :
  In x L -> incl a L -> incl (insert_at k x a) L.
Proof.
  intros Hx Ha y Hy. unfold insert_at in Hy.
  apply in_app_or in Hy. rewrite <- (firstn_skipn k a) in Ha.
  destruct Hy as [Hy|[<-|Hy]]; [|exact Hx|];
    apply Ha, in_or_app; tauto.
Qed.

Lemma binarysort_loop_error (rest : list A) :
  forall (pre : list A) (e : exn),
    incl pre L -> incl rest L ->
    binarysort_loop lt pre rest = Err e -> raised_by lt L e.
Proof.
  induction rest as [|pivot rest IH]; intros pre e Hpre Hrest H;
    cbn [binarysort_loop] in H; [discriminate|].
  assert (Hp : In pivot L) by (apply Hrest; now left).
  destruct (bisect lt (List.length pre) pivot pre 0 (List.length pre))
    as [k|e'] eqn:Hk; cbn [bind] in H.
  - apply (IH (insert_at k pivot pre) e); [| |exact H].
    + now apply incl_insert_at.
    + intros y Hy. apply Hrest. now right.
  - injection H as <-. exact (bisect_error _ _ _ _ _ _ Hp Hpre Hk).
Qed.
End ListSortErrors.

(** An exception of the sort is one a comparison of two of its elements
    raises. *)
Lemma list_sort_error {A : Type} (lt : A -> A -> result bool) (l : list A)
  (e : exn) :
  list_sort lt l = Err e -> raised_by lt l e.
Proof.
  unfold list_sort. intros H.
  destruct (List.length l <? 2)%nat; [discriminate|].
  destruct (count_run lt l) as [[n d]|e'] eqn:Hrun; cbn [bind] in H.
  - assert (Hf : incl (firstn n l) l).
    { intros y Hy. rewrite <- (firstn_skipn n l). apply in_or_app. tauto. }
    assert (Hs : incl (skipn n l) l).
    { intros y Hy. rewrite <- (firstn_skipn n l). apply in_or_app. tauto. }
    assert (Hr : incl (rev (firstn n l)) l).
    { intros y Hy. apply Hf. now apply in_rev. }
    assert (Hgen : forall pre rest : list A,
               incl pre l -> incl rest l ->
               binarysort lt pre rest = Err e -> raised_by lt l e).
    { intros pre rest Hpre Hrest Hb. unfold binarysort in Hb.
      destruct pre as [|a pre].
      - destruct rest as [|x rest].
        + discriminate.
        + apply (binarysort_loop_error lt l rest [x] e); [| |exact Hb].
          * intros y [<-|[]]. apply Hrest. now left.
          * intros y Hy. apply Hrest. now right.
      - exact (binarysort_loop_error lt l rest (a :: pre) e Hpre Hrest Hb). }
    destruct d; [exact (Hgen _ _ Hr Hs H) | exact (Hgen _ _ Hf Hs H)].
  - injection H as <-. apply (count_run_error lt l l e'); [|exact Hrun].
    apply incl_refl.
Qed.

(** ** Ranking: failures *)







(** ** Sorting: the result on a consistent order *)

Lemma StronglySorted_app {A : Type} (R : A -> A -> Prop) (l1 l2 : list A) :
  StronglySorted R l1 -> StronglySorted R l2 ->
  (forall a b, In a l1 -> In b l2 -> R a b) ->
  StronglySorted R (l1 ++ l2).
Proof.
  induction 1 as [|a l1 H1 IH Ha]; intros H2 H12; simpl; [exact H2|].
  constructor.
  - apply IH; [exact H2|]. intros x y Hx Hy. apply H12; [now right|exact Hy].
  - apply Forall_app. split; [exact Ha|].
    apply Forall_forall. intros y Hy. apply H12; [now left|exact Hy].
Qed.

Lemma StronglySorted_app_inv {A : Type} (R : A -> A -> Prop)
  (l1 l2 : list A) :
  StronglySorted R (l1 ++ l2) ->
  StronglySorted R l1 /\ StronglySorted R l2
  /\ forall a b, In a l1 -> In b l2 -> R a b.
Proof.
  induction l1 as [|a l1 IH]; simpl; intros H.
  - split; [constructor|]. split; [exact H|]. intros a b [].
  - apply StronglySorted_inv in H as [H Ha].
    destruct (IH H) as (H1 & H2 & H12).
    apply Forall_app in Ha as [Ha1 Ha2].
    split; [now constructor|]. split; [exact H2|].
    intros x y [<-|Hx] Hy.
    + rewrite Forall_forall in Ha2. now apply Ha2.
    + now apply H12.
Qed.

Lemma StronglySorted_rev {A : Type} (R : A -> A -> Prop) (l : list A) :
  StronglySorted R l -> StronglySorted (fun a b => R b a) (rev l).
Proof.
  induction 1 as [|a l H IH Ha]; simpl; [constructor|].
  apply StronglySorted_app; [exact IH | repeat constructor|].
  intros x y Hx [<-|[]]. apply in_rev in Hx.
  rewrite Forall_forall in Ha. now apply Ha.
Qed.

Lemma StronglySorted_impl {A : Type} (R S : A -> A -> Prop) (l : list A) :
  (forall a b, R a b -> S a b) ->
  StronglySorted R l -> StronglySorted S l.
Proof.
  intros HRS. induction 1 as [|a l H IH Ha]; constructor; [exact IH|].
  eapply Forall_impl; [|exact Ha]. intros b. apply HRS.
Qed.

Lemma StronglySorted_nth {A : Type} (R : A -> A -> Prop) (l : list A) :
  StronglySorted R l ->
  forall (i j : nat) (d : A),
    (i < j < List.length l)%nat -> R (nth i l d) (nth j l d).
Proof.
  induction 1 as [|a l H IH Ha]; intros i j d Hij; simpl in Hij; [lia|].
  destruct j as [|j]; [lia|]. destruct i as [|i]; simpl.
  - rewrite Forall_forall in Ha. apply Ha, nth_In. lia.
  - apply IH. lia.
Qed.

Lemma filter_none {A : Type} (p : A -> bool) (l : list A) :
  Forall (fun a => p a = false) l -> filter p l = [].
Proof.
  induction 1 as [|a l Ha _ IH]; simpl; [reflexivity|]. now rewrite Ha.
Qed.

Section ListSortCorrect.
Context {A : Type}.
Variable lt : A -> A -> result bool.
Variable ltb : A -> A -> bool.
Variable good : A -> Prop.

Hypothesis lt_good :
  forall a b : A, good a -> good b -> lt a b = Ok (ltb a b).
Hypothesis ltb_asym :
  forall a b : A, good a -> good b -> ltb a b = true -> ltb b a = false.
Hypothesis ltb_negtrans :
  forall a b c : A, good a -> good b -> good c ->
    ltb a b = false -> ltb b c = false -> ltb a c = false.

Local Abbreviation le := (le_on ltb good).
Local Abbreviation gt := (gt_on ltb good).

Lemma ltb_irrefl (a : A) : good a -> ltb a a = false.
Proof.
  intros Ha. destruct (ltb a a) eqn:E; [|reflexivity].
  rewrite (ltb_asym a a Ha Ha E) in E. discriminate.
Qed.

Lemma le_trans (a b c : A) : le a b -> le b c -> le a c.
Proof.
  intros (Ha & Hb & Hab) (_ & Hc & Hbc). repeat split; try assumption.
  exact (ltb_negtrans c b a Hc Hb Ha Hbc Hab).
Qed.

Lemma gt_trans (a b c : A) : gt a b -> gt b c -> gt a c.
Proof.
  intros (Ha & Hb & Hab) (_ & Hc & Hbc). repeat split; try assumption.
  destruct (ltb c a) eqn:E; [reflexivity|].
  pose proof (ltb_asym b a Hb Ha Hab) as Hba.
  rewrite (ltb_negtrans c a b Hc Ha Hb E Hba) in Hbc. discriminate.
Qed.

Lemma gt_le (a b : A) : gt b a -> le a b.
Proof.
  intros (Hb & Ha & Hab). repeat split; try assumption.
  exact (ltb_asym a b Ha Hb Hab).
Qed.

(** Elements equal to the same element are not ordered. *)
Lemma eqv_not_lt (x a b : A) :
  good x -> good a -> good b ->
  eqv ltb x a = true -> eqv ltb x b = true -> ltb b a = false.
Proof.
  unfold eqv. intros Hx Ha Hb Hxa Hxb.
  apply andb_prop in Hxa as [Hxa _]. apply andb_prop in Hxb as [_ Hbx].
  apply negb_true_iff in Hxa, Hbx.
  exact (ltb_negtrans b x a Hb Hx Ha Hbx Hxa).
Qed.

(** *** The run at the front *)

Lemma run_ascending_good (l : list A) :
  forall (prev : A) (n : nat),
    good prev -> Forall good l ->
    run_ascending lt prev l n = Ok (n + asc_len ltb prev l)%nat.
Proof.
  induction l as [|x l IH]; intros prev n Hp Hl; simpl.
  - now rewrite Nat.add_0_r.
  - inversion Hl as [|? ? Hx Hl']; subst.
    rewrite (lt_good x prev Hx Hp). cbn [bind].
    destruct (ltb x prev).
    + now rewrite Nat.add_0_r.
    + rewrite (IH x (S n) Hx Hl'). f_equal. lia.
Qed.

Lemma run_descending_good (l : list A) :
  forall (prev : A) (n : nat),
    good prev -> Forall good l ->
    run_descending lt prev l n = Ok (n + desc_len ltb prev l)%nat.
Proof.
  induction l as [|x l IH]; intros prev n Hp Hl; simpl.
  - now rewrite Nat.add_0_r.
  - inversion Hl as [|? ? Hx Hl']; subst.
    rewrite (lt_good x prev Hx Hp). cbn [bind].
    destruct (ltb x prev).
    + rewrite (IH x (S n) Hx Hl'). f_equal. lia.
    + now rewrite Nat.add_0_r.
Qed.

Lemma asc_run_sorted (l : list A) :
  forall prev : A,
    good prev -> Forall good l ->
    Sorted le (prev :: firstn (asc_len ltb prev l) l).
Proof.
  induction l as [|x l IH]; intros prev Hp Hl; simpl.
  - repeat constructor.
  - inversion Hl as [|? ? Hx Hl']; subst.
    destruct (ltb x prev) eqn:E; simpl.
    + repeat constructor.
    + constructor; [now apply IH|]. constructor. now repeat split.
Qed.

Lemma desc_run_sorted (l : list A) :
  forall prev : A,
    good prev -> Forall good l ->
    Sorted gt (prev :: firstn (desc_len ltb prev l) l).
Proof.
  induction l as [|x l IH]; intros prev Hp Hl; simpl.
  - repeat constructor.
  - inversion Hl as [|? ? Hx Hl']; subst.
    destruct (ltb x prev) eqn:E; simpl.
    + constructor; [now apply IH|]. constructor. now repeat split.
    + repeat constructor.
Qed.

Lemma count_run_good (l : list A) :
  Forall good l -> (2 <= List.length l)%nat ->
  exists (n : nat) (d : bool),
    count_run lt l = Ok (n, d)
    /\ (1 <= n)%nat
    /\ if d then StronglySorted gt (firstn n l)
       else StronglySorted le (firstn n l).
Proof.
  intros Hl Hlen. destruct l as [|x0 [|x1 l]]; simpl in Hlen; try lia.
  inversion Hl as [|? ? H0 Hl1]; subst.
  inversion Hl1 as [|? ? H1 Hl']; subst.
  cbn [count_run]. rewrite (lt_good x1 x0 H1 H0). cbn [bind].
  destruct (ltb x1 x0) eqn:E.
  - rewrite (run_descending_good l x1 2 H1 Hl'). cbn [bind].
    exists (2 + desc_len ltb x1 l)%nat, true.
    split; [reflexivity|]. split; [lia|]. cbn [Nat.add firstn].
    apply Sorted_StronglySorted; [exact gt_trans|].
    constructor; [now apply desc_run_sorted|]. constructor.
    now repeat split.
  - rewrite (run_ascending_good l x1 2 H1 Hl'). cbn [bind].
    exists (2 + asc_len ltb x1 l)%nat, false.
    split; [reflexivity|]. split; [lia|]. cbn [Nat.add firstn].
    apply Sorted_StronglySorted; [exact le_trans|].
    constructor; [now apply asc_run_sorted|]. constructor.
    now repeat split.
Qed.
(** *** The binary search *)

Lemma sorted_index (pivot : A) (a : list A) :
  Forall good a -> StronglySorted le a ->
  forall i j : nat,
    (i <= j < List.length a)%nat ->
    ltb (nth j a pivot) (nth i a pivot) = false.
Proof.
  intros Ha Hs i j Hij.
  destruct (Nat.eq_dec i j) as [->|Hne].
  - apply ltb_irrefl. rewrite Forall_nth in Ha. apply Ha. lia.
  - destruct (StronglySorted_nth le a Hs i j pivot) as (_ & _ & H); [lia|].
    exact H.
Qed.

Lemma bisect_good (pivot : A) (a : list A) :
  good pivot -> Forall good a -> StronglySorted le a ->
  forall fuel l r : nat,
    (l < r)%nat -> (r - l <= fuel)%nat ->
    bisect_inv ltb pivot a l r ->
    exists k : nat,
      bisect lt fuel pivot a l r = Ok k /\ bisect_inv ltb pivot a k k.
Proof.
  intros Hp Ha Hs.
  pose proof (sorted_index pivot a Ha Hs) as Hidx.
  assert (Hgood : forall i, (i < List.length a)%nat -> good (nth i a pivot)).
  { intros i Hi. rewrite Forall_nth in Ha. now apply Ha. }
  induction fuel as [|fuel IH]; intros l r Hlr Hfuel (Hb & Hlo & Hhi);
    [lia|].
  cbn [bisect].
  assert (Hpos : (0 < r - l)%nat) by lia.
  pose proof (Nat.lt_div2 (r - l) Hpos) as Hdiv.
  remember (Nat.div2 (r - l)) as h eqn:Eh.
  remember (l + h)%nat as p eqn:Ep.
  assert (Hpr : (l <= p < r)%nat) by lia.
  assert (Hpa : (p < List.length a)%nat) by lia.
  clear Eh Hdiv Hpos.
  rewrite (lt_good pivot (nth p a pivot) Hp (Hgood p Hpa)).
  cbn [bind].
  destruct (ltb pivot (nth p a pivot)) eqn:E.
  - assert (Hinv : bisect_inv ltb pivot a l p).
    { split; [lia|]. split; [exact Hlo|]. intros i Hi.
      destruct (ltb pivot (nth i a pivot)) eqn:F; [reflexivity|].
      rewrite (ltb_negtrans pivot (nth i a pivot) (nth p a pivot)) in E;
        [discriminate | exact Hp | apply Hgood; lia | apply Hgood; lia
        | exact F | apply Hidx; lia]. }
    destruct (Nat.ltb_spec l p) as [Hl|Hl].
    + apply IH; [exact Hl | lia | exact Hinv].
    + exists l. split; [reflexivity|].
      replace p with l in Hinv by lia. exact Hinv.
  - assert (Hinv : bisect_inv ltb pivot a (S p) r).
    { split; [lia|]. split; [|exact Hhi]. intros i Hi.
      apply (ltb_negtrans pivot (nth p a pivot) (nth i a pivot));
        [exact Hp | apply Hgood; lia | apply Hgood; lia | exact E
        | apply Hidx; lia]. }
    destruct (Nat.ltb_spec (S p) r) as [Hl|Hl].
    + apply IH; [exact Hl | lia | exact Hinv].
    + exists (S p). split; [reflexivity|].
      replace r with (S p) in Hinv by lia. exact Hinv.
Qed.

(** The position found splits the front: [pivot] is not less than what is
    before and less than what is after. *)
Lemma bisect_inv_split (pivot : A) (a : list A) (k : nat) :
  bisect_inv ltb pivot a k k ->
  Forall (fun x => ltb pivot x = false) (firstn k a)
  /\ Forall (fun x => ltb pivot x = true) (skipn k a).
Proof.
  intros (Hb & Hlo & Hhi). split; apply Forall_nth; intros i d Hi.
  - rewrite length_firstn in Hi. rewrite nth_firstn.
    destruct (Nat.ltb_spec i k) as [Hik|Hik]; [|lia].
    rewrite (nth_indep a d pivot) by lia. now apply Hlo.
  - rewrite length_skipn in Hi. rewrite nth_skipn.
    rewrite (nth_indep a d pivot) by lia. apply Hhi. lia.
Qed.

(** *** The insertions *)

Lemma insert_stable (pivot : A) (pre orig : list A) (k : nat) :
  good pivot -> Forall good pre ->
  stable_sorted ltb good pre orig ->
  bisect_inv ltb pivot pre k k ->
  stable_sorted ltb good (insert_at k pivot pre) (orig ++ [pivot]).
Proof.
  intros Hp Hpre (Hperm & Hsorted & Hstable) Hinv.
  destruct (bisect_inv_split pivot pre k Hinv) as [Hfront Hback].
  assert (Hgf : Forall good (firstn k pre)).
  { rewrite <- (firstn_skipn k pre) in Hpre.
    now apply Forall_app in Hpre. }
  assert (Hgb : Forall good (skipn k pre)).
  { rewrite <- (firstn_skipn k pre) in Hpre.
    now apply Forall_app in Hpre. }
  unfold insert_at. split; [|split].
  - apply Permutation_trans with (pivot :: firstn k pre ++ skipn k pre);
      [apply Permutation_sym, Permutation_middle|].
    rewrite firstn_skipn.
    apply Permutation_trans with (pivot :: orig);
      [now constructor | apply Permutation_cons_append].
  - rewrite <- (firstn_skipn k pre) in Hsorted.
    apply StronglySorted_app_inv in Hsorted as (H1 & H2 & H12).
    apply StronglySorted_app; [exact H1| |].
    + constructor; [exact H2|].
      rewrite Forall_forall in *. intros b Hb. repeat split.
      * exact Hp.
      * now apply Hgb.
      * apply (ltb_asym pivot b Hp); [now apply Hgb | now apply Hback].
    + intros a b Ha [<-|Hb]; [|now apply H12].
      rewrite Forall_forall in *. repeat split.
      * now apply Hgf.
      * exact Hp.
      * now apply Hfront.
  - intros x Hx. rewrite !filter_app, <- Hstable by exact Hx.
    rewrite <- (firstn_skipn k pre) at 3. rewrite filter_app.
    cbn [filter]. destruct (eqv ltb x pivot) eqn:E.
    + rewrite (filter_none (eqv ltb x) (skipn k pre)).
      * now rewrite !app_nil_r.
      * rewrite Forall_forall in *. intros b Hb.
        destruct (eqv ltb x b) eqn:F; [|reflexivity].
        pose proof (Hback b Hb) as Hlt.
        rewrite (eqv_not_lt x b pivot Hx (Hgb b Hb) Hp F E) in Hlt.
        discriminate.
    + now rewrite app_nil_r.
Qed.

Lemma binarysort_loop_good (rest : list A) :
  forall pre orig : list A,
    pre <> [] -> Forall good orig -> Forall good rest ->
    stable_sorted ltb good pre orig ->
    exists s : list A,
      binarysort_loop lt pre rest = Ok s
      /\ stable_sorted ltb good s (orig ++ rest).
Proof.
  induction rest as [|pivot rest IH]; intros pre orig Hne Ho Hr Hst.
  - exists pre. rewrite app_nil_r. now split.
  - inversion Hr as [|? ? Hp Hr']; subst.
    assert (Hpre : Forall good pre).
    { destruct Hst as (Hperm & _).
      exact (Permutation_Forall (Permutation_sym Hperm) Ho). }
    destruct (bisect_good pivot pre Hp Hpre (proj1 (proj2 Hst))
                (List.length pre) 0 (List.length pre)) as (k & Hk & Hinv).
    + destruct pre; [congruence | simpl; lia].
    + lia.
    + split; [lia|]. split; intros i Hi; lia.
    + cbn [binarysort_loop]. rewrite Hk. cbn [bind].
      destruct (IH (insert_at k pivot pre) (orig ++ [pivot])) as (s & Hs & H).
      * unfold insert_at. now destruct (firstn k pre).
      * apply Forall_app. split; [exact Ho | now constructor].
      * exact Hr'.
      * now apply insert_stable.
      * exists s. split; [exact Hs|].
        now rewrite <- app_assoc in H.
Qed.

(** *** The sort *)

(** A descending run has no two equal elements: reversing it keeps the
    order of equal elements. *)
Lemma filter_descending (x : A) (run : list A) :
  good x -> StronglySorted gt run ->
  filter (eqv ltb x) (rev run) = filter (eqv ltb x) run.
Proof.
  intros Hx Hs. rewrite filter_rev.
  assert (Hshort : (List.length (filter (eqv ltb x) run) <= 1)%nat).
  { induction Hs as [|a l Hs IH Ha]; simpl; [lia|].
    destruct (eqv ltb x a) eqn:E; [|exact IH].
    rewrite (filter_none (eqv ltb x) l); [simpl; lia|].
    rewrite Forall_forall in *. intros b Hb.
    destruct (Ha b Hb) as (Hga & Hgb & Hba).
    destruct (eqv ltb x b) eqn:F; [|reflexivity].
    rewrite (eqv_not_lt x a b Hx Hga Hgb E F) in Hba. discriminate. }
  destruct (filter (eqv ltb x) run) as [|a [|b l]]; simpl in *;
    [reflexivity | reflexivity | lia].
Qed.

Lemma list_sort_good (l : list A) :
  Forall good l ->
  exists s : list A, list_sort lt l = Ok s /\ stable_sorted ltb good s l.
Proof.
  intros Hl. unfold list_sort.
  destruct (Nat.ltb_spec (List.length l) 2) as [Hlen|Hlen].
  - exists l. split; [reflexivity|]. split; [apply Permutation_refl|].
    split; [|reflexivity].
    destruct l as [|a [|b l]]; simpl in Hlen; try lia; repeat constructor.
  - destruct (count_run_good l Hl Hlen) as (n & d & Hrun & Hn & Hsorted).
    rewrite Hrun. cbn [bind].
    assert (Hf : Forall good (firstn n l) /\ Forall good (skipn n l)).
    { rewrite <- (firstn_skipn n l) in Hl. now apply Forall_app in Hl. }
    destruct Hf as [Hf Hk].
    assert (Hne : firstn n l <> []).
    { destruct l; [simpl in Hlen; lia|]. destruct n; [lia|discriminate]. }
    assert (Hloop : forall pre : list A,
               pre <> [] -> stable_sorted ltb good pre (firstn n l) ->
               exists s : list A,
                 binarysort lt pre (skipn n l) = Ok s
                 /\ stable_sorted ltb good s l).
    { intros pre Hpre Hst.
      destruct (binarysort_loop_good (skipn n l) pre (firstn n l)
                  Hpre Hf Hk Hst) as (s & Hs & H).
      exists s. rewrite firstn_skipn in H. split; [|exact H].
      unfold binarysort. destruct pre; [congruence | exact Hs]. }
    destruct d; apply Hloop.
    + intros E. apply Hne.
      now rewrite <- (rev_involutive (firstn n l)), E.
    + split; [apply Permutation_sym, Permutation_rev|]. split.
      * apply StronglySorted_rev in Hsorted.
        eapply StronglySorted_impl; [|exact Hsorted]. intros a b.
        apply gt_le.
      * intros x Hx. now apply filter_descending.
    + exact Hne.
    + split; [apply Permutation_refl|]. split; [exact Hsorted|reflexivity].
Qed.

(** The stable sort of a list is unique: whatever the algorithm, a sort
    that keeps equal elements in their order gives the list that
    [list_sort] gives. *)
Lemma sorted_stable_unique (s1 : list A) :
  forall s2 : list A,
    Forall good s1 -> Permutation s1 s2 ->
    StronglySorted le s1 -> StronglySorted le s2 ->
    (forall x : A, good x -> filter (eqv ltb x) s1 = filter (eqv ltb x) s2) ->
    s1 = s2.
Proof.
  induction s1 as [|a s1 IH]; intros s2 Hg Hperm H1 H2 Hst.
  - apply Permutation_nil in Hperm. now subst s2.
  - destruct s2 as [|b s2];
      [apply Permutation_sym, Permutation_nil in Hperm; discriminate|].
    inversion Hg as [|? ? Ha Hg']; subst.
    assert (Hb : good b).
    { rewrite Forall_forall in Hg. apply Hg.
      apply (Permutation_in b (Permutation_sym Hperm)). now left. }
    apply StronglySorted_inv in H1 as [H1 Hle1].
    apply StronglySorted_inv in H2 as [H2 Hle2].
    assert (Hba : ltb b a = false).
    { assert (Hin : In b (a :: s1))
        by (apply (Permutation_in b (Permutation_sym Hperm)); now left).
      destruct Hin as [->|Hin]; [now apply ltb_irrefl|].
      rewrite Forall_forall in Hle1. now destruct (Hle1 b Hin) as (_ & _ & H). }
    assert (Hab : ltb a b = false).
    { assert (Hin : In a (b :: s2))
        by (apply (Permutation_in a Hperm); now left).
      destruct Hin as [->|Hin]; [now apply ltb_irrefl|].
      rewrite Forall_forall in Hle2. now destruct (Hle2 a Hin) as (_ & _ & H). }
    assert (Eaa : eqv ltb a a = true)
      by (unfold eqv; now rewrite (ltb_irrefl a Ha)).
    assert (Eab : eqv ltb a b = true) by (unfold eqv; now rewrite Hab, Hba).
    pose proof (Hst a Ha) as Hfa. cbn [filter] in Hfa.
    rewrite Eaa, Eab in Hfa. injection Hfa as <- _.
    f_equal. apply IH; [exact Hg' | | exact H1 | exact H2 |].
    + exact (Permutation_cons_inv Hperm).
    + intros x Hx. specialize (Hst x Hx). cbn [filter] in Hst.
      destruct (eqv ltb x a); [now injection Hst | exact Hst].
Qed.

Lemma stable_sorted_unique (s1 s2 l : list A) :
  Forall good l ->
  stable_sorted ltb good s1 l -> stable_sorted ltb good s2 l -> s1 = s2.
Proof.
  intros Hl (Hp1 & Hs1 & Hf1) (Hp2 & Hs2 & Hf2).
  apply sorted_stable_unique; [| |exact Hs1|exact Hs2|].
  - exact (Permutation_Forall (Permutation_sym Hp1) Hl).
  - exact (Permutation_trans Hp1 (Permutation_sym Hp2)).
  - intros x Hx. now rewrite Hf1, Hf2.
Qed.

(** On a consistent order, [sorted(l, reverse=True)] returns the elements
    of [l], none less than a later one, equal elements in the order of
    [l]. *)
Lemma sorted_reverse_good (l : list A) :
  Forall good l ->
  exists s : list A,
    sorted_reverse lt l = Ok s
    /\ Permutation s l
    /\ StronglySorted (fun a b => le b a) s
    /\ forall x : A, good x -> filter (eqv ltb x) s = filter (eqv ltb x) l.
Proof.
  intros Hl.
  destruct (list_sort_good (rev l) (Forall_rev Hl))
    as (s & Hs & Hperm & Hsorted & Hstable).
  exists (rev s). unfold sorted_reverse. rewrite Hs. cbn [bind].
  split; [reflexivity|]. split; [|split].
  - apply Permutation_trans with s; [apply Permutation_sym, Permutation_rev|].
    apply Permutation_trans with (rev l);
      [exact Hperm | apply Permutation_sym, Permutation_rev].
  - now apply StronglySorted_rev.
  - intros x Hx. rewrite filter_rev, (Hstable x Hx), filter_rev.
    apply rev_involutive.
Qed.
End ListSortCorrect.

(** ** Rounding gives numbers *)

Lemma iter_pos_invariant {A : Type} (f : A -> A) (P : A -> Prop) :
  (forall x, P x -> P (f x)) ->
  forall (n : positive) (x : A), P x -> P (iter_pos f n x).
Proof.
  intros Hf. induction n as [n IH|n IH|]; intros x Hx; simpl; auto.
Qed.

Lemma shr_1_nonneg (mrs : shr_record) :
  0 <= shr_m mrs -> 0 <= shr_m (shr_1 mrs).
Proof.
  destruct mrs as [m r s]. cbn [shr_m]. intros H.
  destruct m as [|[p|p|]|p]; cbn [shr_1 shr_m]; lia.
Qed.

(** One shift halves the mantissa. *)
Lemma shr_1_half (mrs : shr_record) (k : Z) :
  0 <= k -> 2 ^ (1 + k) <= shr_m mrs -> 2 ^ k <= shr_m (shr_1 mrs).
Proof.
  destruct mrs as [m r s]. cbn [shr_m]. intros Hk H.
  rewrite Z.pow_add_r in H by lia. change (2 ^ 1) with 2 in H.
  assert (0 < 2 ^ k) by (apply Z.pow_pos_nonneg; lia).
  destruct m as [|[p|p|]|p]; cbn [shr_1 shr_m]; lia.
Qed.

Lemma iter_shr_1_lower (p : positive) :
  forall (mrs : shr_record) (k : Z),
    0 <= k -> 2 ^ (Z.pos p + k) <= shr_m mrs ->
    2 ^ k <= shr_m (iter_pos shr_1 p mrs).
Proof.
  induction p as [p IH|p IH|]; intros mrs k Hk H; simpl.
  - apply IH; [exact Hk|]. apply IH; [lia|]. apply shr_1_half; [lia|].
    replace (1 + (Z.pos p + (Z.pos p + k))) with (Z.pos p~1 + k) by lia.
    exact H.
  - apply IH; [exact Hk|]. apply IH; [lia|].
    replace (Z.pos p + (Z.pos p + k)) with (Z.pos p~0 + k) by lia.
    exact H.
  - now apply shr_1_half.
Qed.

Lemma digits2_lower (m : positive) :
  2 ^ (Z.pos (digits2_pos m) - 1) <= Z.pos m.
Proof.
  induction m as [m IH|m IH|]; simpl digits2_pos.
  - rewrite Pos2Z.inj_succ.
    replace (Z.succ (Z.pos (digits2_pos m)) - 1)
      with (1 + (Z.pos (digits2_pos m) - 1)) by lia.
    rewrite Z.pow_add_r by lia. change (2 ^ 1) with 2. lia.
  - rewrite Pos2Z.inj_succ.
    replace (Z.succ (Z.pos (digits2_pos m)) - 1)
      with (1 + (Z.pos (digits2_pos m) - 1)) by lia.
    rewrite Z.pow_add_r by lia. change (2 ^ 1) with 2. lia.
  - simpl. lia.
Qed.

(** Shifting to the exponent of the format keeps a positive mantissa
    positive, as long as the exponent is not below the smallest one. *)
Lemma shr_fexp_pos (m : positive) (e : Z) (l : location) :
  emin prec emax <= e ->
  0 < shr_m (fst (shr_fexp prec emax (Z.pos m) e l))
  /\ emin prec emax <= snd (shr_fexp prec emax (Z.pos m) e l).
Proof.
  intros He. unfold shr_fexp, shr.
  set (d := Zdigits2 (Z.pos m)).
  assert (Hd : 2 ^ (d - 1) <= Z.pos m) by apply digits2_lower.
  assert (Hd1 : 1 <= d) by (unfold d; simpl; lia).
  assert (Hrec : shr_m (shr_record_of_loc (Z.pos m) l) = Z.pos m)
    by (destruct l as [|[]]; reflexivity).
  destruct (fexp prec emax (d + e) - e) as [|p|p] eqn:Ep;
    simpl fst; simpl snd.
  - rewrite Hrec. lia.
  - split; [|lia].
    assert (Hp : Z.pos p <= d - 1)
      by (unfold fexp, emin, prec, emax in *; lia).
    assert (Hk : 0 <= 0) by lia.
    pose proof (iter_shr_1_lower p (shr_record_of_loc (Z.pos m) l) 0 Hk)
      as H.
    rewrite Hrec in H. simpl in H.
    assert (Hm : 2 ^ (Z.pos p + 0) <= Z.pos m).
    { eapply Z.le_trans; [|exact Hd]. apply Z.pow_le_mono_r; lia. }
    specialize (H Hm). lia.
  - rewrite Hrec. lia.
Qed.

Lemma shr_fexp_nonneg (m e : Z) (l : location) :
  0 <= m -> 0 <= shr_m (fst (shr_fexp prec emax m e l)).
Proof.
  intros Hm. unfold shr_fexp, shr.
  assert (Hrec : 0 <= shr_m (shr_record_of_loc m l))
    by (destruct l as [|[]]; exact Hm).
  destruct (fexp prec emax (Zdigits2 m + e) - e) as [|p|p]; cbn [fst];
    try exact Hrec.
  apply (iter_pos_invariant shr_1 (fun r => 0 <= shr_m r));
    [exact shr_1_nonneg | exact Hrec].
Qed.

Lemma round_nearest_even_ge (m : Z) (l : location) :
  m <= round_nearest_even m l.
Proof.
  unfold round_nearest_even. destruct l as [|[]]; try lia.
  destruct (Z.even m); lia.
Qed.

Lemma binary_round_aux_not_nan (s : bool) (m e : Z) (l : location) :
  0 <= m -> is_nan (binary_round_aux prec emax s m e l) = false.
Proof.
  intros Hm. unfold binary_round_aux.
  pose proof (shr_fexp_nonneg m e l Hm) as H1.
  destruct (shr_fexp prec emax m e l) as [mrs' e']. cbn [fst] in H1.
  pose proof (round_nearest_even_ge (shr_m mrs') (loc_of_shr_record mrs'))
    as H2.
  assert (H0 : 0 <= round_nearest_even (shr_m mrs') (loc_of_shr_record mrs'))
    by lia.
  pose proof (shr_fexp_nonneg _ e' loc_Exact H0) as H3.
  destruct (shr_fexp prec emax _ e' loc_Exact) as [mrs'' e''].
  cbn [fst] in H3.
  destruct (shr_m mrs'') as [|p|p]; [reflexivity| |lia].
  now destruct (e'' <=? emax - prec).
Qed.

Lemma binary_round_aux_not_zero (s : bool) (m : positive) (e : Z)
  (l : location) :
  emin prec emax <= e ->
  is_zero (binary_round_aux prec emax s (Z.pos m) e l) = false.
Proof.
  intros He. unfold binary_round_aux.
  destruct (shr_fexp_pos m e l He) as [H1 He'].
  destruct (shr_fexp prec emax (Z.pos m) e l) as [mrs' e'].
  cbn [fst snd] in H1, He'.
  pose proof (round_nearest_even_ge (shr_m mrs') (loc_of_shr_record mrs'))
    as H2.
  destruct (round_nearest_even (shr_m mrs') (loc_of_shr_record mrs'))
    as [|m1|m1] eqn:Em; try lia.
  destruct (shr_fexp_pos m1 e' loc_Exact He') as [H3 _].
  destruct (shr_fexp prec emax (Z.pos m1) e' loc_Exact) as [mrs'' e''].
  cbn [fst] in H3.
  destruct (shr_m mrs'') as [|p|p]; try lia.
  now destruct (e'' <=? emax - prec).
Qed.

(** The double nearest to an integer is a number, and is zero only for
    the integer 0. *)
Lemma binary_normalize_number (z : Z) :
  is_nan (binary_normalize prec emax z 0 false) = false
  /\ (z <> 0 -> is_zero (binary_normalize prec emax z 0 false) = false).
Proof.
  assert (Hround : forall (s : bool) (m : positive),
             is_nan (binary_round prec emax s m 0) = false
             /\ is_zero (binary_round prec emax s m 0) = false).
  { intros s m. unfold binary_round.
    assert (He : emin prec emax <=
                 snd (shl_align m 0
                        (fexp prec emax (Z.pos (digits2_pos m) + 0)))).
    { unfold shl_align.
      destruct (fexp prec emax (Z.pos (digits2_pos m) + 0) - 0) eqn:E;
        cbn [snd].
      - unfold emin, prec, emax. lia.
      - unfold emin, prec, emax. lia.
      - unfold fexp. lia. }
    destruct (shl_align m 0 _) as [mz ez]. cbn [snd] in He.
    split; [apply binary_round_aux_not_nan; lia
           | now apply binary_round_aux_not_zero]. }
  destruct z as [|m|m]; cbn [binary_normalize].
  - split; [reflexivity|congruence].
  - destruct (Hround false m). tauto.
  - destruct (Hround true m). tauto.
Qed.

(** A finite float divided by a finite non-zero float is a number. *)
Lemma SFdiv_not_nan (x y : float) :
  match x with S754_zero _ | S754_finite _ _ _ => True | _ => False end ->
  match y with S754_finite _ _ _ => True | _ => False end ->
  is_nan (SFdiv prec emax x y) = false.
Proof.
  intros Hx Hy.
  destruct y as [| | |sy my ey]; try contradiction.
  destruct x as [sx| | |sx mx ex]; try contradiction; [reflexivity|].
  cbn [SFdiv]. unfold SFdiv_core_binary.
  set (m' := match _ - _ - _ with
             | Z0 => Z.pos mx
             | Z.pos _ => _
             | Z.neg _ => 0
             end).
  assert (Hm' : 0 <= m').
  { subst m'. destruct (_ - _ - _); [lia| |lia]. apply Z.shiftl_nonneg. lia. }
  assert (Hmy : 0 < Z.pos my) by lia.
  pose proof (Z.div_pos m' (Z.pos my) Hm' Hmy) as Hq.
  unfold Z.div in Hq. destruct (Z.div_eucl m' (Z.pos my)) as [q r].
  now apply binary_round_aux_not_nan.
Qed.

Lemma float_of_int_number (z : Z) (x : float) :
  float_of_int z = Ok x ->
  match x with
  | S754_zero _ => z = 0
  | S754_finite _ _ _ => True
  | _ => False
  end.
Proof.
  unfold float_of_int. intros H.
  destruct (binary_normalize_number z) as [Hnan Hzero].
  destruct (binary_normalize prec emax z 0 false) as [s|s| |s m e];
    try discriminate; injection H as <-; [|exact I].
  destruct (Z.eq_dec z 0) as [E|E]; [exact E|]. now specialize (Hzero E).
Qed.

(** Integer deaths over a non-zero integer total give a ratio that is a
    number, and no other observation does. *)
Lemma integer_ratio_comparable (r : Region) :
  integer_ratio r = true <-> comparable r = true.
Proof.
  unfold integer_ratio, comparable, ratio, fits_double.
  destruct (Deaths r) as [d|]; destruct (TotalCases r) as [t|];
    cbn [py_float float_truediv bind].
  - destruct (float_of_int d) as [x|] eqn:Hd; cbn [bind];
      [|rewrite andb_false_r; split; discriminate].
    destruct (float_of_int t) as [y|] eqn:Ht; cbn [bind];
      [|rewrite andb_false_r; split; discriminate].
    rewrite !andb_true_r.
    pose proof (float_of_int_number d x Hd) as Hx.
    pose proof (float_of_int_number t y Ht) as Hy.
    destruct (Z.eqb_spec t 0) as [E|E].
    + subst t. vm_compute in Ht. injection Ht as <-.
      split; discriminate.
    + destruct y as [s| | |s m e]; try contradiction.
      cbn [is_zero negb]. split; [intros _|reflexivity].
      apply negb_true_iff, SFdiv_not_nan; [|exact I].
      destruct x; try contradiction; exact I.
  - destruct (float_of_int d); split; discriminate.
  - destruct (float_of_int t) as [y|]; cbn [bind]; [|split; discriminate].
    destruct y; split; discriminate.
  - split; discriminate.
Qed.

(** ** The order of the floats *)

Lemma SFcompare_key (x y : float) :
  is_nan x = false -> is_nan y = false ->
  SFcompare x y = Some (lex_compare (float_key x) (float_key y)).
Proof.
  destruct x as [sx|sx| |sx mx ex]; try discriminate;
    destruct y as [sy|sy| |sy my ey]; try discriminate; intros _ _;
    try (destruct sx; destruct sy; reflexivity).
  destruct sx, sy; cbn [SFcompare float_key lex_compare]; try reflexivity.
  rewrite Z.compare_opp, (Z.compare_antisym ex ey).
  destruct (ex ?= ey); reflexivity.
Qed.

Lemma lex_compare_lt (a b : Z * Z * Z) :
  lex_compare a b = Lt <-> lex_lt a b.
Proof.
  destruct a as [[a1 a2] a3], b as [[b1 b2] b3]. unfold lex_compare, lex_lt.
  destruct (Z.compare_spec a1 b1) as [E1|E1|E1];
    destruct (Z.compare_spec a2 b2) as [E2|E2|E2];
    destruct (Z.compare_spec a3 b3) as [E3|E3|E3]; split; intros Hlt;
    try discriminate; try reflexivity; lia.
Qed.

Lemma float_lt_key (x y : float) :
  is_nan x = false -> is_nan y = false ->
  float_lt x y = true <-> lex_lt (float_key x) (float_key y).
Proof.
  intros Hx Hy. unfold float_lt, SFltb. rewrite (SFcompare_key x y Hx Hy).
  rewrite <- lex_compare_lt.
  destruct (lex_compare (float_key x) (float_key y));
    split; intros H; congruence.
Qed.

Lemma float_lt_false_key (x y : float) :
  is_nan x = false -> is_nan y = false ->
  float_lt x y = false <-> ~ lex_lt (float_key x) (float_key y).
Proof.
  intros Hx Hy. rewrite <- (float_lt_key x y Hx Hy).
  destruct (float_lt x y); split; intros H; congruence.
Qed.

Lemma float_lt_asym (x y : float) :
  is_nan x = false -> is_nan y = false ->
  float_lt x y = true -> float_lt y x = false.
Proof.
  intros Hx Hy. rewrite float_lt_key, float_lt_false_key by assumption.
  destruct (float_key x) as [[a1 a2] a3], (float_key y) as [[b1 b2] b3].
  unfold lex_lt. lia.
Qed.

Lemma float_lt_negtrans (x y z : float) :
  is_nan x = false -> is_nan y = false -> is_nan z = false ->
  float_lt x y = false -> float_lt y z = false -> float_lt x z = false.
Proof.
  intros Hx Hy Hz. rewrite !float_lt_false_key by assumption.
  destruct (float_key x) as [[a1 a2] a3], (float_key y) as [[b1 b2] b3],
    (float_key z) as [[c1 c2] c3].
  unfold lex_lt. lia.
Qed.

Lemma lex_compare_antisym (a b : Z * Z * Z) :
  lex_compare b a = CompOpp (lex_compare a b).
Proof.
  destruct a as [[a1 a2] a3], b as [[b1 b2] b3]. unfold lex_compare.
  rewrite (Z.compare_antisym a1 b1), (Z.compare_antisym a2 b2),
    (Z.compare_antisym a3 b3).
  destruct (a1 ?= b1); destruct (a2 ?= b2); destruct (a3 ?= b3);
    reflexivity.
Qed.

(** Not less means greater or equal, on numbers. *)
Lemma float_not_lt_ge (x y : float) :
  is_nan x = false -> is_nan y = false ->
  float_lt x y = false -> SFleb y x = true.
Proof.
  intros Hx Hy. unfold float_lt, SFltb, SFleb.
  rewrite (SFcompare_key x y Hx Hy), (SFcompare_key y x Hy Hx).
  rewrite (lex_compare_antisym (float_key x) (float_key y)).
  destruct (lex_compare (float_key x) (float_key y)); simpl; congruence.
Qed.

(** Equal means that neither is less, on numbers. *)
Lemma float_eqb_not_lt (x y : float) :
  is_nan x = false -> is_nan y = false ->
  SFeqb x y = negb (float_lt x y) && negb (float_lt y x).
Proof.
  intros Hx Hy. unfold float_lt, SFltb, SFeqb.
  rewrite (SFcompare_key x y Hx Hy), (SFcompare_key y x Hy Hx).
  rewrite (lex_compare_antisym (float_key x) (float_key y)).
  destruct (lex_compare (float_key x) (float_key y)); reflexivity.
Qed.

(** ** Ranking *)

Lemma comparable_ratio (r : Region) :
  comparable r = true ->
  exists x : float,
    ratio r = Ok x /\ ratio_value r = x /\ is_nan x = false.
Proof.
  unfold comparable, ratio_value. destruct (ratio r) as [x|]; [|discriminate].
  intros H. exists x. apply negb_true_iff in H. auto.
Qed.

Lemma Region_lt_comparable (a b : Region) :
  comparable a = true -> comparable b = true ->
  Region_lt a b = Ok (Region_ltb a b).
Proof.
  intros Ha Hb.
  destruct (comparable_ratio a Ha) as (x & Hx & Vx & _).
  destruct (comparable_ratio b Hb) as (y & Hy & Vy & _).
  unfold Region_lt, Region_ltb. now rewrite Hx, Hy, Vx, Vy.
Qed.

Lemma Region_ltb_asym (a b : Region) :
  comparable a = true -> comparable b = true ->
  Region_ltb a b = true -> Region_ltb b a = false.
Proof.
  intros Ha Hb.
  destruct (comparable_ratio a Ha) as (x & _ & Vx & Nx).
  destruct (comparable_ratio b Hb) as (y & _ & Vy & Ny).
  unfold Region_ltb. rewrite Vx, Vy. now apply float_lt_asym.
Qed.

Lemma Region_ltb_negtrans (a b c : Region) :
  comparable a = true -> comparable b = true -> comparable c = true ->
  Region_ltb a b = false -> Region_ltb b c = false ->
  Region_ltb a c = false.
Proof.
  intros Ha Hb Hc.
  destruct (comparable_ratio a Ha) as (x & _ & Vx & Nx).
  destruct (comparable_ratio b Hb) as (y & _ & Vy & Ny).
  destruct (comparable_ratio c Hc) as (z & _ & Vz & Nz).
  unfold Region_ltb. rewrite Vx, Vy, Vz. now apply float_lt_negtrans.
Qed.





(** The end-to-end scenario: of A (5 deaths in 100) and B (20 in 100), the
    first region is B. *)
Lemma TopRegion_highest :
  TopRegion [observation "A" (FInt 5) (FInt 100);
             observation "B" (FInt 20) (FInt 100)] 1 =
  Ok [observation "B" (FInt 20) (FInt 100)].
Proof.
  vm_compute. reflexivity.
Qed.


(** Two observations with a total of 0: the comparison divides by zero. *)
Lemma TopRegion_two_zeros :
  TopRegion [observation "A" (FInt 0) (FInt 0);
             observation "B" (FInt 0) (FInt 0)] 3 = Err ZeroDivisionError.
Proof.
  vm_compute. reflexivity.
Qed.


(** * Further properties *)

(** ** Printing *)

Lemma digit_value_char (d : Z) :
  0 <= d < 10 -> digit_value (digit_char d) = Some d.
Proof.
  intros H.
  assert (E : d = 0 \/ d = 1 \/ d = 2 \/ d = 3 \/ d = 4 \/ d = 5 \/ d = 6
              \/ d = 7 \/ d = 8 \/ d = 9) by lia.
  repeat (destruct E as [->|E]; [reflexivity|]). now subst d.
Qed.

(** [decimal_digits] writes the digits of its argument when it is given
    fuel enough. *)
Lemma decimal_digits_value (fuel : nat) :
  forall n : Z,
    0 <= n < 2 ^ Z.of_nat (S fuel) ->
    int_digits (decimal_digits (S fuel) n) n.
Proof.
  induction fuel as [|fuel IH]; intros n Hn;
    cbn [decimal_digits]; destruct (Z.ltb_spec n 10) as [Hlt|Hge];
    try (apply digits_one; apply digit_value_char; lia).
  - change (2 ^ Z.of_nat 1) with 2 in Hn. lia.
  - rewrite Nat2Z.inj_succ, Z.pow_succ_r in Hn by lia.
    assert (Hq : 0 <= n / 10 < 2 ^ Z.of_nat (S fuel)).
    { split; [apply Z.div_pos; lia|].
      apply Z.div_lt_upper_bound; lia. }
    assert (H10 : 0 < 10) by lia.
    pose proof (Z.mod_pos_bound n 10 H10) as Hr.
    pose proof (digits_more _ _ (digit_char (n mod 10)) (n mod 10)
                  (IH (n / 10) Hq) (digit_value_char _ Hr)) as H.
    rewrite <- (Z.div_mod n 10) in H by lia. exact H.
Qed.

Lemma log2_fuel (n : Z) :
  0 <= n -> n < 2 ^ Z.of_nat (S (Z.to_nat (Z.log2 n))).
Proof.
  intros Hn. rewrite Nat2Z.inj_succ, Z2Nat.id by apply Z.log2_nonneg.
  destruct (Z.eq_dec n 0) as [->|Hne]; [reflexivity|].
  apply Z.log2_spec. lia.
Qed.

Lemma py_str_int_literal (z : Z) : int_literal (py_str_int z) z.
Proof.
  unfold py_str_int. destruct (Z.ltb_spec z 0) as [Hneg|Hpos].
  - assert (Hd : int_digits
                   (decimal_digits (S (Z.to_nat (Z.log2 (Z.abs z)))) (- z))
                   (- z)).
    { apply decimal_digits_value. replace (Z.abs z) with (- z) by lia.
      split; [lia | apply log2_fuel; lia]. }
    pose proof (literal_minus "" _ "" (- z) eq_refl eq_refl Hd) as H.
    cbn [append] in H. rewrite append_empty_r, Z.opp_involutive in H.
    exact H.
  - assert (Hd : int_digits
                   (decimal_digits (S (Z.to_nat (Z.log2 (Z.abs z)))) z) z).
    { apply decimal_digits_value. replace (Z.abs z) with z by lia.
      split; [lia | apply log2_fuel; lia]. }
    pose proof (literal_unsigned "" _ "" z eq_refl eq_refl Hd) as H.
    cbn [append] in H. rewrite append_empty_r in H. exact H.
Qed.

(** X1: what [Region.__str__] prints for an attribute reads back as that
    attribute: the decimal text of an integer of either sign is coerced by
    [str2int] to the same integer, and the text of ['nan'] to ['nan']. *)
Theorem str2int_field_str : forall f : field, str2int (field_str f) = f.
Proof.
  intros [z|]; [|reflexivity]. unfold str2int, field_str.
  now rewrite (py_int_complete _ z (py_str_int_literal z)).
Qed.

(** ** Dates *)

Lemma length_take (n : nat) (s : string) :
  String.length (take n s) = Nat.min n (String.length s).
Proof.
  revert s. induction n as [|n IH]; intros s; [reflexivity|].
  destruct s as [|c s]; [reflexivity|]. simpl. now rewrite IH.
Qed.

Lemma length_drop (n : nat) (s : string) :
  String.length (drop n s) = (String.length s - n)%nat.
Proof.
  revert s. induction n as [|n IH]; intros s; simpl; [lia|].
  destruct s as [|c s]; [reflexivity|]. simpl. apply IH.
Qed.

(** X2: the date [str2date] gives has ten characters at most, and exactly
    ten as soon as the input has ten; applied to its own result it gives
    the same date again, provided the input had seven characters or
    more. *)
Theorem str2date_length_idempotent : forall s : string,
  (String.length (str2date s) <= 10)%nat
  /\ ((10 <= String.length s)%nat -> String.length (str2date s) = 10%nat)
  /\ ((7 <= String.length s)%nat -> str2date (str2date s) = str2date s).
Proof.
  intros s.
  assert (Hlen : String.length (str2date s) =
                 (Nat.min 4 (String.length s)
                  + Nat.min 2 (String.length s - 5)
                  + Nat.min 2 (String.length s - 8) + 2)%nat).
  { unfold str2date, py_slice. cbn [Nat.sub].
    rewrite !length_append, !length_take, !length_drop. simpl String.length.
    lia. }
  split; [lia|]. split; [lia|]. intros H7.
  do 7 (destruct s as [|? s]; [simpl in H7; lia|]).
  unfold str2date, py_slice. cbn [Nat.sub drop take append].
  destruct s as [|c7 s]; [reflexivity|]. cbn [drop take append].
  destruct s as [|c8 [|c9 s]]; reflexivity.
Qed.

Lemma str2date_length_idempotent_witness :
  String.length (str2date "2020-06-15T18:00:00") = 10%nat
  /\ str2date (str2date "2020-06-15T18:00:00") =
     str2date "2020-06-15T18:00:00".
Proof.
  split.
  - apply (proj1 (proj2 (str2date_length_idempotent "2020-06-15T18:00:00"))).
    simpl. lia.
  - apply (proj2 (proj2 (str2date_length_idempotent "2020-06-15T18:00:00"))).
    simpl. lia.
Defined.

(** ** Record construction *)

(** X3: a [Region] is built exactly from the rows of 17 fields or more, a
    shorter row raising [IndexError]; fields beyond the seventeenth are
    ignored. *)
Theorem Region_init_length : forall row : list string,
  ((exists r : Region, Region_init row = Ok r) <->
   (17 <= List.length row)%nat)
  /\ ((List.length row < 17)%nat -> Region_init row = Err IndexError)
  /\ (forall extra : list string,
         (17 <= List.length row)%nat ->
         Region_init (row ++ extra) = Region_init row).
Proof.
  intros row. split; [split|split].
  - intros [r Hr]. destruct (Nat.lt_ge_cases (List.length row) 17) as [H|H];
      [|exact H].
    rewrite (Region_init_short row H) in Hr. discriminate.
  - apply Region_init_ok.
  - apply Region_init_short.
  - intros extra H.
    do 17 (destruct row as [|? row]; [simpl in H; lia|]). reflexivity.
Qed.

Lemma Region_init_length_witness :
  Region_init (split comma sample_row) =
  Region_init (split comma sample_row ++ ["note"]).
Proof.
  symmetry.
  apply (proj2 (proj2 (Region_init_length (split comma sample_row)))).
  vm_compute. lia.
Defined.

(** ** Reading the files: what the fields hold *)

Lemma without_universal_newlines (n : nat) :
  forall s : string,
    (String.length s <= n)%nat -> without cr (universal_newlines s) = true.
Proof.
  induction n as [|n IH]; intros s Hs.
  - destruct s; [reflexivity | simpl in Hs; lia].
  - destruct s as [|c s]; [reflexivity|]. simpl in Hs.
    cbn [universal_newlines]. destruct (Ascii.eqb c cr) eqn:Ec.
    + unfold without. cbn [all_chars].
      replace (Ascii.eqb nl cr) with false by reflexivity. cbn [negb andb].
      destruct s as [|c' s]; [reflexivity|]. simpl in Hs.
      destruct (Ascii.eqb c' nl); apply IH; simpl; lia.
    + unfold without. cbn [all_chars]. rewrite Ec. cbn [negb andb].
      apply IH. lia.
Qed.

Lemma all_chars_lines (p : ascii -> bool) (s : string) :
  all_chars p s = true ->
  Forall (fun l => all_chars p l = true) (lines_keepends s).
Proof.
  induction s as [|c s IH]; intros H; [constructor|].
  simpl in H. apply andb_prop in H as [Hc Hs]. specialize (IH Hs).
  cbn [lines_keepends]. destruct (Ascii.eqb c nl) eqn:E.
  - apply Ascii.eqb_eq in E. subst c.
    constructor; [|exact IH]. cbn [all_chars]. now rewrite Hc.
  - destruct (lines_keepends s) as [|l ls].
    + constructor; [|constructor]. cbn [all_chars]. now rewrite Hc.
    + inversion IH as [|? ? Hl Hls]; subst.
      constructor; [|exact Hls]. cbn [all_chars]. now rewrite Hc, Hl.
Qed.

Lemma all_chars_remove (p : ascii -> bool) (c : ascii) (s : string) :
  all_chars p s = true -> all_chars p (remove_char c s) = true.
Proof.
  induction s as [|x s IH]; intros H; [reflexivity|].
  simpl in H. apply andb_prop in H as [Hx Hs]. simpl.
  destruct (Ascii.eqb x c); [now apply IH|]. simpl. now rewrite Hx, IH.
Qed.

Lemma without_remove (c : ascii) (s : string) :
  without c (remove_char c s) = true.
Proof.
  induction s as [|x s IH]; [reflexivity|]. simpl.
  destruct (Ascii.eqb x c) eqn:E; [exact IH|].
  unfold without. simpl. rewrite E. exact IH.
Qed.

Lemma all_chars_split (p : ascii -> bool) (c : ascii) (s : string) :
  all_chars p s = true ->
  Forall (fun f => all_chars p f = true) (split c s).
Proof.
  induction s as [|x s IH]; intros H; [repeat constructor|].
  simpl in H. apply andb_prop in H as [Hx Hs]. specialize (IH Hs).
  cbn [split]. destruct (Ascii.eqb x c).
  - now constructor.
  - destruct (split c s) as [|f fs].
    + constructor; [|constructor]. simpl. now rewrite Hx.
    + inversion IH as [|? ? Hf Hfs]; subst.
      constructor; [|exact Hfs]. simpl. now rewrite Hx, Hf.
Qed.

Lemma without_split (c : ascii) (s : string) :
  Forall (fun f => without c f = true) (split c s).
Proof.
  induction s as [|x s IH]; [repeat constructor|].
  cbn [split]. destruct (Ascii.eqb x c) eqn:E.
  - now constructor.
  - destruct (split c s) as [|f fs].
    + constructor; [|constructor]. unfold without. simpl. now rewrite E.
    + inversion IH as [|? ? Hf Hfs]; subst.
      constructor; [|exact Hfs]. unfold without in *. simpl.
      now rewrite E, Hf.
Qed.

Lemma Region_init_in (row : list string) (r : Region) :
  Region_init row = Ok r -> In (Date r) row /\ In (Name r) row.
Proof.
  intros H.
  destruct (Nat.lt_ge_cases (List.length row) 17) as [Hlt|Hge].
  - rewrite (Region_init_short row Hlt) in H. discriminate.
  - do 17 (destruct row as [|? row]; [simpl in Hge; lia|]).
    injection H as <-. simpl. tauto.
Qed.

Lemma mapM_in {A B : Type} (f : A -> result B) (l : list A) :
  forall bs : list B,
    mapM f l = Ok bs ->
    forall b : B, In b bs -> exists a : A, In a l /\ f a = Ok b.
Proof.
  induction l as [|a l IH]; simpl; intros bs H b Hb.
  - injection H as <-. destruct Hb.
  - destruct (f a) as [b0|] eqn:Ha; [cbn [bind] in H|discriminate].
    destruct (mapM f l) as [bs'|]; [cbn [bind] in H|discriminate].
    injection H as <-. destruct Hb as [<-|Hb].
    + exists a. split; [now left | exact Ha].
    + destruct (IH bs' eq_refl b Hb) as (a' & Hin & Ha').
      exists a'. split; [now right | exact Ha'].
Qed.

(** X4: the date and the name of every [Region] that [Parse] returns hold
    no comma, no newline and no carriage return, whatever the file: a
    comma always separates two fields, quoted or not. *)
Theorem Parse_clean_fields :
  forall (fs : filesystem) (filename : string) (Ls : list Region),
    Parse fs filename = Ok Ls ->
    Forall (fun r => clean (Date r) = true /\ clean (Name r) = true) Ls.
Proof.
  intros fs filename Ls H. unfold Parse in H.
  destruct (fs filename) as [text|]; [cbn [bind] in H|discriminate].
  rewrite Parse_loop_mapM in H.
  destruct (mapM _ _) as [rs|] eqn:Hrs; [cbn [bind] in H|discriminate].
  injection H as <-. simpl. apply Forall_forall. intros r Hr.
  destruct (mapM_in _ _ rs Hrs r Hr) as (l & Hl & Hinit).
  assert (Hcr : without cr l = true).
  { pose proof (all_chars_lines _ _
                  (without_universal_newlines _ text (Nat.le_refl _))) as HF.
    rewrite Forall_forall in HF. apply HF.
    destruct (lines_keepends (universal_newlines text)); [destruct Hl|].
    now right. }
  assert (Hfields : Forall (fun f => clean f = true)
                      (split comma (remove_char nl l))).
  { apply Forall_forall. intros f Hf. unfold clean.
    pose proof (without_split comma (remove_char nl l)) as H1.
    pose proof (all_chars_split _ comma _ (without_remove nl l)) as H2.
    pose proof (all_chars_split _ comma _
                  (all_chars_remove _ nl l Hcr)) as H3.
    rewrite Forall_forall in H1, H2, H3. unfold without in *.
    now rewrite (H1 f Hf), (H2 f Hf), (H3 f Hf). }
  rewrite Forall_forall in Hfields.
  destruct (Region_init_in _ r Hinit) as [Hd Hn].
  split; now apply Hfields.
Qed.

Lemma Parse_clean_fields_witness :
  exists Ls : list Region,
    Parse (one_file "a.csv" (file_lines [sample_header; sample_row] true))
      "a.csv" = Ok Ls
    /\ Forall (fun r => clean (Date r) = true /\ clean (Name r) = true) Ls.
Proof.
  eexists. split; [vm_compute; reflexivity|].
  apply (Parse_clean_fields
           (one_file "a.csv" (file_lines [sample_header; sample_row] true))
           "a.csv").
  vm_compute. reflexivity.
Defined.

(** ** Reading the files: line endings and short lines *)

Lemma universal_newlines_id (s : string) :
  without cr s = true -> universal_newlines s = s.
Proof.
  unfold without. induction s as [|c s IH]; intros H; [reflexivity|].
  simpl in H. apply andb_prop in H as [Hc Hs]. apply negb_true_iff in Hc.
  cbn [universal_newlines]. rewrite Hc. now rewrite IH.
Qed.

Lemma universal_newlines_crlf (s : string) :
  without cr s = true -> universal_newlines (to_crlf s) = s.
Proof.
  unfold without. induction s as [|c s IH]; intros H; [reflexivity|].
  simpl in H. apply andb_prop in H as [Hc Hs]. apply negb_true_iff in Hc.
  cbn [to_crlf]. destruct (Ascii.eqb c nl) eqn:En.
  - apply Ascii.eqb_eq in En. subst c. cbn [universal_newlines].
    replace (Ascii.eqb cr cr) with true by reflexivity.
    replace (Ascii.eqb nl nl) with true by reflexivity.
    now rewrite IH.
  - cbn [universal_newlines]. rewrite Hc. now rewrite IH.
Qed.

(** X5: a file written with carriage return and newline at the end of its
    lines gives what the same file with newlines alone gives, the same
    objects or the same failure. *)
Theorem Parse_crlf :
  forall (fs fs' : filesystem) (filename text : string),
    without cr text = true ->
    fs filename = Ok text ->
    fs' filename = Ok (to_crlf text) ->
    Parse fs' filename = Parse fs filename.
Proof.
  intros fs fs' filename text Hcr Hfs Hfs'. unfold Parse.
  rewrite Hfs, Hfs'. cbn [bind].
  now rewrite universal_newlines_crlf, universal_newlines_id.
Qed.

Lemma Parse_crlf_witness :
  Parse (one_file "a.csv"
           (to_crlf (file_lines [sample_header; sample_row] true))) "a.csv" =
  Parse (one_file "a.csv" (file_lines [sample_header; sample_row] true))
    "a.csv".
Proof.
  apply (Parse_crlf _ _ "a.csv" (file_lines [sample_header; sample_row] true));
    vm_compute; reflexivity.
Defined.

Lemma mapM_error {A B : Type} (f : A -> result B) (e : exn) (l : list A) :
  Forall (fun a => (exists b : B, f a = Ok b) \/ f a = Err e) l ->
  Exists (fun a => f a = Err e) l ->
  mapM f l = Err e.
Proof.
  induction 1 as [|a l Ha Hl IH]; intros Hex; [inversion Hex|].
  simpl. destruct Ha as [[b Hb]|Ha]; [|now rewrite Ha].
  rewrite Hb. cbn [bind]. rewrite IH; [reflexivity|].
  inversion Hex as [? ? Hbad|? ? Hrest]; subst; [congruence|exact Hrest].
Qed.

(** The lines read from a file that ends with a newline are its lines,
    empty ones included. *)
Lemma lines_of_file_newline (ls : list string) :
  Forall (fun l => plain_line l = true) ls ->
  map (remove_char nl) (lines_keepends (file_lines ls true)) = ls.
Proof.
  induction 1 as [|l ls Hl Hls IH]; [reflexivity|].
  cbn [file_lines]. destruct ls as [|l' ls].
  - rewrite lines_keepends_cons by exact Hl. simpl.
    rewrite remove_nl_plain by exact Hl. simpl.
    now rewrite append_empty_r.
  - rewrite lines_keepends_cons by exact Hl. cbn [map]. rewrite IH.
    rewrite remove_nl_plain by exact Hl. simpl.
    now rewrite append_empty_r.
Qed.

(** X6: when one line after the header has fewer than 17 fields, an empty
    line included, [Parse] returns nothing and raises [IndexError], however
    many well-formed rows the file has. *)
Theorem Parse_short_line :
  forall (fs : filesystem) (filename header : string) (rows : list string)
         (final_newline : bool),
    fs filename = Ok (file_lines (header :: rows) final_newline) ->
    plain_line header = true ->
    Forall (fun r => plain_line r = true) rows ->
    final_newline = true \/ Forall (fun r => r <> "") rows ->
    Exists (fun r => full_row r = false) rows ->
    Parse fs filename = Err IndexError.
Proof.
  intros fs filename header rows b Hfs Hh Hplain Hb Hshort.
  assert (Hlines : map (remove_char nl)
                     (lines_keepends (file_lines rows b)) = rows).
  { destruct Hb as [->|Hne].
    - now apply lines_of_file_newline.
    - apply lines_of_file. rewrite Forall_forall in *. intros r Hr.
      split; [now apply Hplain | now apply Hne]. }
  unfold Parse. rewrite Hfs. cbn [bind].
  rewrite universal_newlines_file by (constructor; assumption).
  rewrite lines_after_header by exact Hh.
  rewrite Parse_loop_mapM.
  rewrite <- (mapM_map (remove_char nl)
                (fun l => Region_init (split comma l))).
  rewrite Hlines.
  rewrite (mapM_error (fun l => Region_init (split comma l)) IndexError);
    [reflexivity| |].
  - apply Forall_forall. intros r _.
    destruct (Nat.lt_ge_cases (List.length (split comma r)) 17) as [H|H].
    + right. now apply Region_init_short.
    + left. now apply Region_init_ok.
  - eapply Exists_impl; [|exact Hshort]. intros r Hr.
    apply Region_init_short. unfold full_row in Hr.
    apply Nat.leb_gt in Hr. exact Hr.
Qed.

Lemma Parse_short_line_witness :
  Parse (one_file "a.csv" (file_lines [sample_header; sample_row; ""] true))
    "a.csv" = Err IndexError.
Proof.
  apply (Parse_short_line _ "a.csv" sample_header [sample_row; ""] true).
  - reflexivity.
  - vm_compute. reflexivity.
  - repeat constructor.
  - now left.
  - apply Exists_cons_tl, Exists_cons_hd. reflexivity.
Defined.

Lemma mapM_app {A B : Type} (f : A -> result B) (l1 l2 : list A) :
  mapM f (l1 ++ l2) =
  (bs1 <- mapM f l1 ;; bs2 <- mapM f l2 ;; Ok (bs1 ++ bs2)).
Proof.
  induction l1 as [|a l1 IH]; simpl.
  - now destruct (mapM f l2).
  - destruct (f a) as [b|]; [cbn [bind]|reflexivity]. rewrite IH.
    destruct (mapM f l1) as [bs1|]; [cbn [bind]|reflexivity].
    now destruct (mapM f l2).
Qed.

(** X7: [ParseFiles] on two lists of names one after the other is
    [ParseFiles] on the first followed by [ParseFiles] on the second, and
    it fails with the first failure met in that order. *)
Theorem ParseFiles_app :
  forall (fs : filesystem) (names1 names2 : list string),
    ParseFiles fs (names1 ++ names2) =
    (Rs1 <- ParseFiles fs names1 ;;
     Rs2 <- ParseFiles fs names2 ;;
     Ok (Rs1 ++ Rs2)).
Proof.
  intros fs names1 names2. unfold ParseFiles.
  rewrite !ParseFiles_loop_mapM, mapM_app.
  destruct (mapM (Parse fs) names1) as [ps1|]; [cbn [bind]|reflexivity].
  destruct (mapM (Parse fs) names2) as [ps2|]; [cbn [bind]|reflexivity].
  simpl. now rewrite concat_app.
Qed.

(** ** Averaging: failures, order of the input, values *)

Lemma accumulate_nan (Ls : list Region) :
  Exists (fun l => NewCases l = FNan) Ls ->
  forall D C : dict Z, accumulate Ls D C = Err TypeError.
Proof.
  induction Ls as [|l Ls IH]; intros H D C; [inversion H|].
  cbn [accumulate]. destruct (NewCases l) as [z|] eqn:Hz; [|reflexivity].
  cbn [int_add bind]. apply IH.
  inversion H as [? ? Hbad|? ? Hrest]; subst; [congruence|exact Hrest].
Qed.

Lemma ints_or_nan (Ls : list Region) :
  Forall (fun l => int_new_cases l = true) Ls
  \/ Exists (fun l => NewCases l = FNan) Ls.
Proof.
  induction Ls as [|l Ls [IH|IH]].
  - left. constructor.
  - unfold int_new_cases at 1. destruct (NewCases l) as [z|] eqn:Hz.
    + left. constructor; [|exact IH]. unfold int_new_cases. now rewrite Hz.
    + right. now constructor.
  - right. now constructor.
Qed.

Lemma ComputeAverage_ints_outcome (Ls : list Region) :
  Forall (fun l => int_new_cases l = true) Ls ->
  (exists D : dict float, ComputeAverage Ls = Ok D)
  \/ ComputeAverage Ls = Err OverflowError.
Proof.
  intros Hint. unfold ComputeAverage.
  destruct (accumulate_ints Ls Hint [] []) as (D & C & Hacc & _).
  pose proof (accumulate_invariant Ls [] [] eq_refl (Forall_nil _)) as Hinv.
  rewrite Hacc in *. cbn [bind]. destruct Hinv as [Hk Hc].
  apply averages_no_zero_division; [now rewrite Hk | exact Hc].
Qed.

(** X8: [ComputeAverage] raises [TypeError] exactly when some observation
    holds ['nan'] for its new cases; otherwise it returns a mapping, unless
    a mean exceeds the range of a double, which raises [OverflowError]. *)
Theorem ComputeAverage_outcome : forall Ls : list Region,
  (ComputeAverage Ls = Err TypeError <->
   Exists (fun l => NewCases l = FNan) Ls)
  /\ ((exists D : dict float, ComputeAverage Ls = Ok D)
      \/ ComputeAverage Ls = Err TypeError
      \/ ComputeAverage Ls = Err OverflowError).
Proof.
  intros Ls.
  assert (Hnan : Exists (fun l => NewCases l = FNan) Ls ->
                 ComputeAverage Ls = Err TypeError).
  { intros H. unfold ComputeAverage. now rewrite (accumulate_nan Ls H). }
  destruct (ints_or_nan Ls) as [Hint|Hex].
  - destruct (ComputeAverage_ints_outcome Ls Hint) as [[D HD]|Hov].
    + split; [|left; eauto]. split; [rewrite HD; discriminate|exact Hnan].
    + split; [|now right; right].
      split; [rewrite Hov; discriminate|exact Hnan].
  - split; [|right; left; now apply Hnan]. split; [now intros _|exact Hnan].
Qed.

Lemma ComputeAverage_outcome_witness :
  ComputeAverage [mkRegion "2020-06-15T17:00:00" "Lazio" (FInt 41) FNan
                    (FInt 807) (FInt 7928) (FInt 321815)] = Err TypeError.
Proof.
  apply (proj2 (proj1 (ComputeAverage_outcome _))).
  apply Exists_cons_hd. reflexivity.
Defined.

Lemma sum_permutation (a b : list Z) : Permutation a b -> sum a = sum b.
Proof.
  unfold sum. induction 1; simpl; lia.
Qed.

Lemma group_average_permutation (Ls Ls' : list Region) (name : string) :
  Permutation Ls Ls' -> group_average Ls name = group_average Ls' name.
Proof.
  intros H. unfold group_average.
  assert (Hp : Permutation (new_cases_of name Ls) (new_cases_of name Ls'))
    by (unfold new_cases_of; now apply Permutation_flat_map).
  now rewrite (sum_permutation _ _ Hp), (Permutation_length Hp).
Qed.

Lemma mapM_permutation {A B : Type} (f : A -> result B) (l l' : list A) :
  Permutation l l' ->
  forall bs : list B,
    mapM f l = Ok bs ->
    exists bs' : list B, mapM f l' = Ok bs' /\ Permutation bs bs'.
Proof.
  induction 1 as [|a l l' Hp IH|a b l|l l' l'' Hp1 IH1 Hp2 IH2];
    intros bs H; simpl in *.
  - exists bs. now split.
  - destruct (f a) as [y|]; [cbn [bind] in *|discriminate].
    destruct (mapM f l) as [ys|]; [cbn [bind] in H|discriminate].
    injection H as <-. destruct (IH ys eq_refl) as (ys' & -> & Hys).
    exists (y :: ys'). split; [reflexivity | now constructor].
  - destruct (f b) as [y|]; [cbn [bind] in *|discriminate].
    destruct (f a) as [x|]; [cbn [bind] in *|discriminate].
    destruct (mapM f l) as [ys|]; [cbn [bind] in *|discriminate].
    injection H as <-. exists (x :: y :: ys).
    split; [reflexivity | apply perm_swap].
  - destruct (IH1 bs H) as (bs' & H' & Hp').
    destruct (IH2 bs' H') as (bs'' & H'' & Hp'').
    exists bs''. split; [exact H''|]. now apply Permutation_trans with bs'.
Qed.

Lemma ComputeAverage_ok_ints (Ls : list Region) (D : dict float) :
  ComputeAverage Ls = Ok D -> Forall (fun l => int_new_cases l = true) Ls.
Proof.
  intros H. destruct (ints_or_nan Ls) as [Hint|Hex]; [exact Hint|].
  unfold ComputeAverage in H. rewrite (accumulate_nan Ls Hex) in H.
  discriminate.
Qed.

(** X9: the averages do not depend on the order of the observations: when
    [ComputeAverage] returns a mapping for a sequence, it returns for every
    reordering of the sequence a mapping with the same entries, the order
    of the regions apart. *)
Theorem ComputeAverage_permutation :
  forall (Ls Ls' : list Region) (D : dict float),
    Permutation Ls Ls' ->
    ComputeAverage Ls = Ok D ->
    exists D' : dict float,
      ComputeAverage Ls' = Ok D' /\ Permutation D D'.
Proof.
  intros Ls Ls' D Hp HD.
  pose proof (ComputeAverage_ok_ints Ls D HD) as Hint.
  assert (Hint' : Forall (fun l => int_new_cases l = true) Ls')
    by exact (Permutation_Forall Hp Hint).
  rewrite (ComputeAverage_region_averages Ls Hint) in HD.
  rewrite (ComputeAverage_region_averages Ls' Hint').
  unfold region_averages in *.
  destruct (distinct_names_spec Ls) as [Hnd Hin].
  destruct (distinct_names_spec Ls') as [Hnd' Hin'].
  assert (Hnames : Permutation (distinct_names Ls) (distinct_names Ls')).
  { apply NoDup_Permutation; [exact Hnd | exact Hnd'|].
    intros name. rewrite Hin, Hin'.
    split; apply Permutation_in; [|apply Permutation_sym];
      now apply Permutation_map. }
  rewrite (mapM_ext _ (fun name => a <- group_average Ls' name ;;
                                   Ok (name, a))) in HD.
  - exact (mapM_permutation _ _ _ Hnames D HD).
  - intros name. now rewrite (group_average_permutation Ls Ls' name Hp).
Qed.

Lemma ComputeAverage_permutation_witness :
  exists D' : dict float,
    ComputeAverage (new_cases "B" [3] ++ new_cases "A" [1; 2]) = Ok D'
    /\ Permutation [("A", decimal2 150); ("B", decimal2 300)] D'.
Proof.
  apply (ComputeAverage_permutation
           (new_cases "A" [1; 2] ++ new_cases "B" [3])).
  - apply Permutation_app_comm.
  - vm_compute. reflexivity.
Defined.

Lemma int_truediv_number (a b : Z) (q : float) :
  int_truediv a b = Ok q -> is_nan q = false.
Proof.
  unfold int_truediv. destruct (b =? 0) eqn:Eb; [discriminate|].
  destruct (a =? 0) eqn:Ea; [intros H; now injection H as <-|].
  apply Z.eqb_neq in Ea, Eb.
  assert (Hq : is_nan (SFdiv prec emax (exact_int a) (exact_int b)) = false).
  { apply SFdiv_not_nan; [destruct a | destruct b]; try exact I; congruence. }
  destruct (SFdiv prec emax (exact_int a) (exact_int b));
    try discriminate; intros H; now injection H as <-.
Qed.

Lemma py_round2_number (q : float) :
  is_nan q = false -> is_nan (py_round2 q) = false.
Proof.
  destruct q as [s|s| |s m e]; intros H; try exact H; try discriminate.
  unfold py_round2. destruct (hundredths m e); try reflexivity.
  now apply SFdiv_not_nan.
Qed.

Lemma averages_numbers (entries : dict Z) (C : dict Z) :
  forall R : dict float,
    averages entries C = Ok R ->
    Forall (fun kv => is_nan (snd kv) = false) R.
Proof.
  induction entries as [|[name s] entries IH]; simpl; intros R H.
  - injection H as <-. constructor.
  - destruct (dict_getitem C name) as [c|]; [cbn [bind] in H|discriminate].
    destruct (int_truediv s c) as [q|] eqn:Hq;
      [cbn [bind] in H|discriminate].
    destruct (averages entries C) as [R'|]; [cbn [bind] in H|discriminate].
    injection H as <-. constructor; [|now apply IH]. simpl.
    apply py_round2_number. exact (int_truediv_number s c q Hq).
Qed.

(** A mapping that [ComputeAverage] returns has one entry for each region
    of the input, with a number for value. *)
Lemma ComputeAverage_ok_mapping (Ls : list Region) (D : dict float) :
  ComputeAverage Ls = Ok D ->
  keys D = distinct_names Ls
  /\ Forall (fun kv => is_nan (snd kv) = false) D.
Proof.
  intros HD. split.
  - pose proof (ComputeAverage_ok_ints Ls D HD) as Hint.
    rewrite (ComputeAverage_region_averages Ls Hint) in HD.
    now destruct (mapM_pairs (group_average Ls) (distinct_names Ls) D HD).
  - unfold ComputeAverage in HD.
    destruct (accumulate Ls [] []) as [[S C]|]; [cbn [bind] in HD|discriminate].
    exact (averages_numbers S C D HD).
Qed.

(** X10: every average of a mapping that [ComputeAverage] returns is a
    number, never the not-a-number float, and the regions of the mapping
    are distinct: its entries can be ordered by value. *)
Theorem ComputeAverage_numbers : forall (Ls : list Region) (D : dict float),
  ComputeAverage Ls = Ok D ->
  NoDup (keys D) /\ Forall (fun kv => is_nan (snd kv) = false) D.
Proof.
  intros Ls D HD. destruct (ComputeAverage_ok_mapping Ls D HD) as [Hk Hn].
  split; [|exact Hn]. rewrite Hk. apply distinct_names_spec.
Qed.

Lemma ComputeAverage_numbers_witness :
  exists D : dict float,
    ComputeAverage (new_cases "Lazio" [1; 1; 2]) = Ok D
    /\ Forall (fun kv => is_nan (snd kv) = false) D.
Proof.
  eexists. split; [vm_compute; reflexivity|].
  apply (ComputeAverage_numbers (new_cases "Lazio" [1; 1; 2])).
  vm_compute. reflexivity.
Defined.

(** ** Ranking: what holds whatever the ratios *)

Lemma insert_at_permutation {A : Type} (k : nat) (x : A) (a : list A) :
  Permutation (insert_at k x a) (x :: a).
Proof.
  unfold insert_at. rewrite <- (firstn_skipn k a) at 3.
  apply Permutation_sym, Permutation_middle.
Qed.

Lemma binarysort_loop_permutation {A : Type} (lt : A -> A -> result bool)
  (rest : list A) :
  forall pre s : list A,
    binarysort_loop lt pre rest = Ok s -> Permutation s (pre ++ rest).
Proof.
  induction rest as [|pivot rest IH]; intros pre s H;
    cbn [binarysort_loop] in H.
  - injection H as <-. now rewrite app_nil_r.
  - destruct (bisect lt _ pivot pre 0 _) as [k|];
      [cbn [bind] in H|discriminate].
    apply Permutation_trans with (insert_at k pivot pre ++ rest);
      [now apply IH|].
    apply Permutation_trans with ((pivot :: pre) ++ rest).
    + apply Permutation_app_tail, insert_at_permutation.
    + simpl. apply Permutation_middle.
Qed.

(** Whatever the comparison answers, a sort that returns has put the
    elements of the list in some order. *)
Lemma list_sort_permutation {A : Type} (lt : A -> A -> result bool)
  (l s : list A) :
  list_sort lt l = Ok s -> Permutation s l.
Proof.
  unfold list_sort. intros H.
  destruct (List.length l <? 2)%nat;
    [injection H as <-; apply Permutation_refl|].
  destruct (count_run lt l) as [[n d]|]; [cbn [bind] in H|discriminate].
  assert (Hgen : forall pre : list A,
             Permutation pre (firstn n l) ->
             binarysort lt pre (skipn n l) = Ok s -> Permutation s l).
  { intros pre Hpre Hb.
    apply Permutation_trans with (pre ++ skipn n l).
    - unfold binarysort in Hb. destruct pre as [|a pre].
      + destruct (skipn n l) as [|x rest].
        * injection Hb as <-. apply Permutation_refl.
        * exact (binarysort_loop_permutation lt rest [x] s Hb).
      + exact (binarysort_loop_permutation lt _ (a :: pre) s Hb).
    - apply Permutation_trans with (firstn n l ++ skipn n l);
        [now apply Permutation_app_tail|].
      rewrite firstn_skipn. apply Permutation_refl. }
  destruct d.
  - apply (Hgen (rev (firstn n l)));
      [apply Permutation_sym, Permutation_rev | exact H].
  - apply (Hgen (firstn n l)); [apply Permutation_refl | exact H].
Qed.

Lemma list_sort_returns {A : Type} (lt : A -> A -> result bool)
  (l : list A) :
  (forall a b : A, In a l -> In b l -> exists c : bool, lt a b = Ok c) ->
  exists s : list A, list_sort lt l = Ok s.
Proof.
  intros Hlt. destruct (list_sort lt l) as [s|e] eqn:H; [now exists s|].
  destruct (list_sort_error lt l e H) as (a & b & Ha & Hb & Hab).
  destruct (Hlt a b Ha Hb) as [c Hc]. congruence.
Qed.



Lemma py_take_split {A : Type} (n : Z) (l : list A) :
  exists rest : list A,
    l = py_take n l ++ rest
    /\ List.length (py_take n l) =
       if n <? 0 then Z.to_nat (Z.max 0 (Z.of_nat (List.length l) + n))
       else Nat.min (Z.to_nat n) (List.length l).
Proof.
  unfold py_take. destruct (Z.ltb_spec n 0) as [Hn|Hn].
  - exists (skipn (Z.to_nat (Z.max 0 (Z.of_nat (List.length l) + n))) l).
    split; [now rewrite firstn_skipn|]. rewrite length_firstn. lia.
  - exists (skipn (Z.to_nat n) l).
    split; [now rewrite firstn_skipn|]. now rewrite length_firstn.
Qed.



Lemma float_lt_nan (x y : float) :
  is_nan x = true \/ is_nan y = true -> float_lt x y = false.
Proof.
  intros [H|H]; destruct x; try discriminate; destruct y; try discriminate;
    reflexivity.
Qed.

(** X13: [Region.__lt__] never orders two observations both ways, and
    never puts an observation before itself, not-a-number ratios
    included. *)
Theorem Region_lt_asymmetric : forall a b : Region,
  Region_lt a b = Ok true -> Region_lt b a = Ok false /\ a <> b.
Proof.
  intros a b H. unfold Region_lt in *.
  destruct (ratio a) as [x|] eqn:Hx; [cbn [bind] in *|discriminate].
  destruct (ratio b) as [y|] eqn:Hy; [cbn [bind] in *|discriminate].
  injection H as H.
  assert (Hnum : is_nan x = false /\ is_nan y = false).
  { destruct (is_nan x) eqn:Nx;
      [rewrite (float_lt_nan x y (or_introl Nx)) in H; discriminate|].
    destruct (is_nan y) eqn:Ny;
      [rewrite (float_lt_nan x y (or_intror Ny)) in H; discriminate|].
    now split. }
  destruct Hnum as [Nx Ny]. split.
  - now rewrite (float_lt_asym x y Nx Ny H).
  - intros ->. rewrite Hx in Hy. injection Hy as ->.
    rewrite (float_lt_asym y y Ny Ny H) in H. discriminate.
Qed.

Lemma Region_lt_asymmetric_witness :
  Region_lt (observation "B" (FInt 20) (FInt 100))
    (observation "A" (FInt 5) (FInt 100)) = Ok false.
Proof.
  apply (Region_lt_asymmetric (observation "A" (FInt 5) (FInt 100))).
  vm_compute. reflexivity.
Defined.

(** ** Charts *)

Lemma value_lt_good (a b : string * float) :
  value_number a -> value_number b -> value_lt a b = Ok (value_ltb a b).
Proof.
  reflexivity.
Qed.

Lemma value_ltb_asym (a b : string * float) :
  value_number a -> value_number b ->
  value_ltb a b = true -> value_ltb b a = false.
Proof.
  unfold value_number, value_ltb. apply float_lt_asym.
Qed.

Lemma value_ltb_negtrans (a b c : string * float) :
  value_number a -> value_number b -> value_number c ->
  value_ltb a b = false -> value_ltb b c = false -> value_ltb a c = false.
Proof.
  unfold value_number, value_ltb. apply float_lt_negtrans.
Qed.

(** Sorting the items of a mapping of numbers by value, from high to low:
    the same items, no value below a later one, items of equal value in
    the order of the mapping. *)
Lemma sorted_by_value (D : dict float) :
  Forall value_number D ->
  exists ranked : dict float,
    sorted_reverse value_lt D = Ok ranked
    /\ Permutation ranked D
    /\ StronglySorted value_ge ranked
    /\ forall v : float,
         filter (fun kv => SFeqb v (snd kv)) ranked =
         filter (fun kv => SFeqb v (snd kv)) D.
Proof.
  intros HD.
  destruct (sorted_reverse_good value_lt value_ltb value_number
              value_lt_good value_ltb_asym value_ltb_negtrans D HD)
    as (s & Hs & Hperm & Hsorted & Hstable).
  assert (Hgs : Forall value_number s)
    by exact (Permutation_Forall (Permutation_sym Hperm) HD).
  exists s. split; [exact Hs|]. split; [exact Hperm|]. split.
  - eapply StronglySorted_impl; [|exact Hsorted].
    intros a b (Hb & Ha & Hab). unfold value_ge.
    now apply float_not_lt_ge.
  - intros v. destruct (is_nan v) eqn:Hv.
    + rewrite !filter_none; [reflexivity| |];
        apply Forall_forall; intros kv _; now destruct v.
    + assert (Hext : forall l : dict float,
                 Forall value_number l ->
                 filter (fun kv => SFeqb v (snd kv)) l =
                 filter (eqv value_ltb ("", v)) l).
      { intros l Hl. apply filter_ext_in. intros kv Hkv.
        rewrite Forall_forall in Hl. unfold eqv, value_ltb. simpl.
        apply float_eqb_not_lt; [exact Hv | exact (Hl kv Hkv)]. }
      rewrite (Hext s Hgs), (Hext D HD). now apply Hstable.
Qed.

Lemma dict_set_new {V : Type} (d : dict V) (k : string) (v : V) :
  ~ In k (keys d) -> dict_set d k v = d ++ [(k, v)].
Proof.
  induction d as [|[k0 v0] d IH]; simpl; intros H; [reflexivity|].
  destruct (String.eqb_spec k0 k) as [->|Hne]; [tauto|].
  rewrite IH; [reflexivity | tauto].
Qed.

Lemma fold_dict_set_nodup {V : Type} (items : list (string * V)) :
  forall d : dict V,
    NoDup (keys (d ++ items)) ->
    fold_left (fun d kv => dict_set d (fst kv) (snd kv)) items d = d ++ items.
Proof.
  induction items as [|[k v] items IH]; intros d H; simpl.
  - now rewrite app_nil_r.
  - assert (Hk : ~ In k (keys d)).
    { unfold keys in *. rewrite map_app in H. simpl in H.
      apply NoDup_remove_2 in H. intros Hin. apply H, in_or_app. now left. }
    rewrite (dict_set_new d k v Hk). rewrite IH.
    + now rewrite <- app_assoc.
    + now rewrite <- app_assoc.
Qed.

(** A mapping made of items with distinct keys has those items. *)
Lemma dict_of_items_nodup {V : Type} (items : list (string * V)) :
  NoDup (keys items) -> dict_of_items items = items.
Proof.
  intros H. unfold dict_of_items. now rewrite fold_dict_set_nodup.
Qed.

(** X14: for a mapping of distinct regions to numbers, [AveragePlot] never
    fails and draws one bar for each entry of the mapping, the heights
    from high to low and regions of equal height in the order of the
    mapping. *)
Theorem AveragePlot_bars : forall D : dict float,
  NoDup (keys D) ->
  Forall value_number D ->
  exists ranked : dict float,
    Permutation ranked D
    /\ StronglySorted value_ge ranked
    /\ (forall v : float,
           filter (fun kv => SFeqb v (snd kv)) ranked =
           filter (fun kv => SFeqb v (snd kv)) D)
    /\ AveragePlot D =
       Ok [plt_bar (map fst ranked) (map snd ranked) "steelblue";
           plt_xticks 90;
           plt_xlabel "Regions";
           plt_ylabel "Daily average of new cases";
           plt_title "Daily average of new cases per region";
           plt_show].
Proof.
  intros D Hnd HD.
  destruct (sorted_by_value D HD) as (s & Hs & Hperm & Hsorted & Hstable).
  exists s. split; [exact Hperm|]. split; [exact Hsorted|].
  split; [exact Hstable|].
  unfold AveragePlot. rewrite Hs. cbn [bind].
  rewrite dict_of_items_nodup; [reflexivity|].
  unfold keys in *.
  exact (Permutation_NoDup (Permutation_map fst (Permutation_sym Hperm)) Hnd).
Qed.

Lemma AveragePlot_bars_witness :
  exists ranked : dict float,
    AveragePlot [("Lazio", decimal2 150); ("Umbria", decimal2 300)] =
    Ok [plt_bar (map fst ranked) (map snd ranked) "steelblue";
        plt_xticks 90;
        plt_xlabel "Regions";
        plt_ylabel "Daily average of new cases";
        plt_title "Daily average of new cases per region";
        plt_show].
Proof.
  destruct (AveragePlot_bars
              [("Lazio", decimal2 150); ("Umbria", decimal2 300)])
    as (ranked & _ & _ & _ & H).
  - repeat constructor; simpl; intuition discriminate.
  - repeat constructor.
  - exists ranked. exact H.
Defined.

(** X15: the line of [TimelinePlot] has one point for each observation of
    the region, in the order of the input, so that the points of several
    files read one after the other follow each other; a region that does
    not occur gives an empty line and no failure. *)
Theorem TimelinePlot_points :
  forall (Ls1 Ls2 : list Region) (region : string) (attr : attribute),
    timeline (Ls1 ++ Ls2) region attr =
    timeline Ls1 region attr ++ timeline Ls2 region attr
    /\ List.length (timeline Ls1 region attr) =
       count_occ string_dec (map Name Ls1) region
    /\ (timeline Ls1 region attr = [] <-> ~ In region (map Name Ls1)).
Proof.
  intros Ls1 Ls2 region attr. unfold timeline.
  split; [now rewrite filter_app, map_app|].
  rewrite length_map.
  assert (Hcount : List.length
                     (filter (fun l => String.eqb (Name l) region) Ls1) =
                   count_occ string_dec (map Name Ls1) region).
  { induction Ls1 as [|l Ls1 IH]; [reflexivity|]. simpl.
    destruct (String.eqb_spec (Name l) region) as [E|E];
      destruct (string_dec (Name l) region); try contradiction; simpl;
      now rewrite IH. }
  split; [exact Hcount|].
  rewrite (count_occ_not_In string_dec), <- Hcount.
  destruct (filter _ Ls1); simpl; split; intros H;
    try reflexivity; try discriminate.
Qed.

Lemma TimelinePlot_points_witness :
  timeline (new_cases "Lazio" [1; 2]) "Lombardia" ADeaths = [].
Proof.
  apply (proj2 (proj2 (TimelinePlot_points (new_cases "Lazio" [1; 2]) []
                         "Lombardia" ADeaths))).
  simpl. intuition discriminate.
Defined.

Lemma fold_dict_set_find {V : Type} (f : string -> V) (A : list string) :
  forall (D : dict V) (k : string),
    dict_find (fold_left (fun D n => dict_set D n (f n)) A D) k =
    if in_dec string_dec k A then Some (f k) else dict_find D k.
Proof.
  induction A as [|a A IH]; intros D k; [reflexivity|].
  cbn [fold_left]. rewrite IH.
  destruct (in_dec string_dec k A) as [Hin|Hout];
    destruct (in_dec string_dec k (a :: A)) as [Hin'|Hout'];
    try reflexivity.
  - exfalso. apply Hout'. now right.
  - rewrite dict_find_set. destruct Hin' as [->|Hin']; [|contradiction].
    now rewrite String.eqb_refl.
  - rewrite dict_find_set.
    destruct (String.eqb_spec a k) as [->|Hne]; [|reflexivity].
    exfalso. apply Hout'. now left.
Qed.

Section TimelineAllFacts.
Variable set_iter : list string -> list string.

(** Iterating over a set meets each of its elements. *)
Hypothesis set_iter_complete :
  forall (l : list string) (x : string), In x l -> In x (set_iter l).

Lemma TimelineAll_lines_eq (Ls : list Region) (attr : attribute) :
  TimelineAll set_iter Ls attr = TimelineAll_lines Ls attr.
Proof.
  unfold TimelineAll, TimelineAll_lines.
  destruct (ComputeAverage Ls) as [Cu|] eqn:HCu; [cbn [bind]|reflexivity].
  destruct (sorted_reverse value_lt Cu) as [s|] eqn:Hs;
    [cbn [bind]|reflexivity].
  destruct (ComputeAverage_ok_mapping Ls Cu HCu) as [Hk _].
  destruct (distinct_names_spec Ls) as [Hnd Hin].
  assert (Hperm : Permutation s Cu).
  { unfold sorted_reverse in Hs.
    destruct (list_sort value_lt (rev Cu)) as [s0|] eqn:Hs0;
      [cbn [bind] in Hs|discriminate].
    injection Hs as <-.
    apply Permutation_trans with s0;
      [apply Permutation_sym, Permutation_rev|].
    apply Permutation_trans with (rev Cu);
      [exact (list_sort_permutation value_lt _ s0 Hs0)
      | apply Permutation_sym, Permutation_rev]. }
  assert (Hks : Permutation (keys s) (distinct_names Ls)).
  { rewrite <- Hk. unfold keys. now apply Permutation_map. }
  destruct (py_take_split 5 s) as (rest & Hsplit & _).
  assert (Hkt : NoDup (keys (py_take 5 s))
                /\ forall k, In k (keys (py_take 5 s)) ->
                             In k (map Name Ls)).
  { assert (Hnds : NoDup (keys s))
      by exact (Permutation_NoDup (Permutation_sym Hks) Hnd).
    rewrite Hsplit in Hnds, Hks. unfold keys in *.
    rewrite map_app in Hnds, Hks. split.
    - exact (NoDup_app_remove_r _ _ Hnds).
    - intros k Hkin. apply Hin.
      apply (Permutation_in k Hks), in_or_app. now left. }
  destruct Hkt as [Hndt Hint].
  rewrite (dict_of_items_nodup _ Hndt).
  assert (Hplots : forall t : dict float,
             (forall k, In k (keys t) -> In k (map Name Ls)) ->
             mapM (fun k =>
                     series <- dict_getitem
                                 (fold_left
                                    (fun D n =>
                                       dict_set D n (timeline Ls n attr))
                                    (set_iter (map Name Ls)) []) k ;;
                     Ok (plt_plot (map fst series) (map snd series)
                           (Some k))) (keys t) =
             Ok (map (fun kv => region_plot Ls attr (fst kv)) t)).
  { induction t as [|[k v] t IH]; intros Hsub; [reflexivity|].
    cbn [keys map mapM fst]. unfold dict_getitem at 1.
    rewrite (fold_dict_set_find (fun n => timeline Ls n attr)).
    destruct (in_dec string_dec k (set_iter (map Name Ls))) as [_|Hout].
    - cbn [bind]. unfold keys in IH. rewrite IH; [reflexivity|].
      intros k' Hk'. apply Hsub. now right.
    - exfalso. apply Hout, set_iter_complete, Hsub. now left. }
  now rewrite (Hplots _ Hint).
Qed.
End TimelineAllFacts.

Lemma ComputeAverage_errors (Ls : list Region) (e : exn) :
  ComputeAverage Ls = Err e -> e = TypeError \/ e = OverflowError.
Proof.
  intros H. destruct (ints_or_nan Ls) as [Hint|Hex].
  - destruct (ComputeAverage_ints_outcome Ls Hint) as [[D HD]|Hov];
      [congruence|]. right. congruence.
  - unfold ComputeAverage in H. rewrite (accumulate_nan Ls Hex) in H.
    left. cbn [bind] in H. congruence.
Qed.

(** X16: whatever the order in which the set of names is iterated,
    [TimelineAll] looks up only regions that have a series, so that the
    lookup never raises [KeyError], and it draws the lines that the sorted
    averages determine: the result does not depend on that order. *)
Theorem TimelineAll_set_order :
  forall (set_iter1 set_iter2 : list string -> list string)
         (Ls : list Region) (attr : attribute),
    (forall l x, In x l -> In x (set_iter1 l)) ->
    (forall l x, In x l -> In x (set_iter2 l)) ->
    TimelineAll set_iter1 Ls attr = TimelineAll set_iter2 Ls attr
    /\ TimelineAll set_iter1 Ls attr = TimelineAll_lines Ls attr
    /\ TimelineAll set_iter1 Ls attr <> Err KeyError.
Proof.
  intros it1 it2 Ls attr H1 H2.
  rewrite (TimelineAll_lines_eq it1 H1), (TimelineAll_lines_eq it2 H2).
  split; [reflexivity|]. split; [reflexivity|].
  unfold TimelineAll_lines.
  destruct (ComputeAverage Ls) as [Cu|e] eqn:HCu; cbn [bind].
  2: { destruct (ComputeAverage_errors Ls e HCu) as [->| ->]; discriminate. }
  destruct (list_sort_returns value_lt (rev Cu)) as [s Hs];
    [intros a b _ _; eexists; reflexivity|].
  unfold sorted_reverse. rewrite Hs. discriminate.
Qed.

Lemma TimelineAll_set_order_witness :
  TimelineAll (nodup string_dec)
    (new_cases "A" [1; 2] ++ new_cases "B" [5]) ANewCases =
  TimelineAll (fun l => rev (nodup string_dec l))
    (new_cases "A" [1; 2] ++ new_cases "B" [5]) ANewCases.
Proof.
  apply (proj1 (TimelineAll_set_order
                  (nodup string_dec) (fun l => rev (nodup string_dec l))
                  (new_cases "A" [1; 2] ++ new_cases "B" [5]) ANewCases
                  (fun l x H => proj2 (nodup_In string_dec l x) H)
                  (fun l x H =>
                     proj1 (in_rev _ x)
                       (proj2 (nodup_In string_dec l x) H)))).
Defined.

(** X17: when the averages can be computed, [TimelineAll] draws one line
    for each of the regions of highest average, five of them at most, from
    the highest average down, regions of equal average in the order of
    their first observation; each line is labelled with its region and
    holds the points of that region. *)
Theorem TimelineAll_top_five :
  forall (set_iter : list string -> list string)
         (Ls : list Region) (attr : attribute) (Cu : dict float),
    (forall l x, In x l -> In x (set_iter l)) ->
    ComputeAverage Ls = Ok Cu ->
    exists ranked : dict float,
      Permutation ranked Cu
      /\ StronglySorted value_ge ranked
      /\ (forall v : float,
             filter (fun kv => SFeqb v (snd kv)) ranked =
             filter (fun kv => SFeqb v (snd kv)) Cu)
      /\ TimelineAll set_iter Ls attr =
         Ok (map (fun kv => region_plot Ls attr (fst kv)) (firstn 5 ranked)
             ++ TimelineAll_finish attr)
      /\ List.length (firstn 5 ranked) =
         Nat.min 5 (List.length (distinct_names Ls)).
Proof.
  intros set_iter Ls attr Cu Hset HCu.
  destruct (ComputeAverage_ok_mapping Ls Cu HCu) as [Hk Hnum].
  destruct (sorted_by_value Cu Hnum) as (s & Hs & Hperm & Hsorted & Hstable).
  exists s. split; [exact Hperm|]. split; [exact Hsorted|].
  split; [exact Hstable|]. split.
  - rewrite (TimelineAll_lines_eq set_iter Hset). unfold TimelineAll_lines.
    rewrite HCu. cbn [bind]. rewrite Hs. reflexivity.
  - rewrite length_firstn, (Permutation_length Hperm), <- Hk.
    unfold keys. now rewrite length_map.
Qed.

Lemma TimelineAll_top_five_witness :
  exists ranked : dict float,
    TimelineAll (nodup string_dec)
      (new_cases "A" [1; 2] ++ new_cases "B" [5]) ANewCases =
    Ok (map (fun kv =>
               region_plot (new_cases "A" [1; 2] ++ new_cases "B" [5])
                 ANewCases (fst kv)) (firstn 5 ranked)
        ++ TimelineAll_finish ANewCases)
    /\ List.length (firstn 5 ranked) = 2%nat.
Proof.
  destruct (TimelineAll_top_five (nodup string_dec)
              (new_cases "A" [1; 2] ++ new_cases "B" [5]) ANewCases
              [("A", decimal2 150); ("B", decimal2 500)])
    as (ranked & _ & _ & _ & H & Hlen).
  - intros l x Hx. now apply nodup_In.
  - vm_compute. reflexivity.
  - exists ranked. split; [exact H | exact Hlen].
Defined.

(** ** Ranking a ranking *)

Lemma StronglySorted_firstn {A : Type} (R : A -> A -> Prop) (n : nat)
  (l : list A) :
  StronglySorted R l -> StronglySorted R (firstn n l).
Proof.
  intros H. rewrite <- (firstn_skipn n l) in H.
  now apply StronglySorted_app_inv in H.
Qed.

(** A sequence of comparable observations that is already ranked is left
    as it is. *)
Lemma sorted_reverse_ranked (l : list Region) :
  Forall (fun r => comparable r = true) l ->
  StronglySorted
    (fun a b => le_on Region_ltb (fun r => comparable r = true) b a) l ->
  sorted_reverse Region_lt l = Ok l.
Proof.
  intros Hl Hs.
  destruct (list_sort_good Region_lt Region_ltb
              (fun r => comparable r = true)
              Region_lt_comparable Region_ltb_asym Region_ltb_negtrans
              (rev l) (Forall_rev Hl)) as (s0 & Hs0 & Hst).
  assert (Hself : stable_sorted Region_ltb (fun r => comparable r = true)
                    (rev l) (rev l)).
  { split; [apply Permutation_refl|]. split; [|reflexivity].
    apply StronglySorted_rev in Hs.
    eapply StronglySorted_impl; [|exact Hs]. now intros a b H. }
  rewrite (stable_sorted_unique Region_ltb (fun r => comparable r = true)
             Region_ltb_asym
             s0 (rev l) (rev l) (Forall_rev Hl) Hst Hself) in Hs0.
  unfold sorted_reverse. rewrite Hs0. cbn [bind]. now rewrite rev_involutive.
Qed.

(** X18: ranking what [TopRegion] returned returns it again: for
    observations with integer deaths and a non-zero integer total and for
    [n >= 0], [TopRegion(TopRegion(Ls, n), n)] is [TopRegion(Ls, n)]. *)
Theorem TopRegion_idempotent :
  forall (Ls : list Region) (n : Z) (out : list Region),
    0 <= n ->
    Forall (fun r => integer_ratio r = true) Ls ->
    TopRegion Ls n = Ok out ->
    TopRegion out n = Ok out.
Proof.
  intros Ls n out Hn Hint H.
  assert (HLs : Forall (fun r => comparable r = true) Ls).
  { eapply Forall_impl; [|exact Hint]. intros r.
    apply integer_ratio_comparable. }
  destruct (sorted_reverse_good Region_lt Region_ltb
              (fun r => comparable r = true)
              Region_lt_comparable Region_ltb_asym Region_ltb_negtrans
              Ls HLs) as (s & Hs & Hperm & Hsorted & _).
  unfold TopRegion in H. rewrite Hs in H. cbn [bind] in H.
  unfold py_take in H. destruct (Z.ltb_spec n 0) as [|_]; [lia|].
  injection H as <-.
  assert (Hgs : Forall (fun r => comparable r = true) s)
    by exact (Permutation_Forall (Permutation_sym Hperm) HLs).
  assert (Hgf : Forall (fun r => comparable r = true)
                  (firstn (Z.to_nat n) s)).
  { rewrite <- (firstn_skipn (Z.to_nat n) s) in Hgs.
    now apply Forall_app in Hgs. }
  unfold TopRegion.
  rewrite (sorted_reverse_ranked _ Hgf
             (StronglySorted_firstn _ (Z.to_nat n) s Hsorted)).
  cbn [bind]. unfold py_take. destruct (Z.ltb_spec n 0) as [|_]; [lia|].
  now rewrite firstn_firstn, Nat.min_id.
Qed.

Lemma TopRegion_idempotent_witness :
  TopRegion [observation "B" (FInt 20) (FInt 100)] 1 =
  Ok [observation "B" (FInt 20) (FInt 100)].
Proof.
  apply (TopRegion_idempotent
           [observation "A" (FInt 5) (FInt 100);
            observation "B" (FInt 20) (FInt 100)] 1).
  - lia.
  - repeat constructor.
  - vm_compute. reflexivity.
Defined.

(** ** Printing what was read *)

Lemma without_append (c : ascii) (a b : string) :
  without c (a ++ b) = without c a && without c b.
Proof.
  apply all_chars_append.
Qed.

Lemma without_decimal_digits (c : ascii) (fuel : nat) :
  (forall d : Z, 0 <= d < 10 -> Ascii.eqb (digit_char d) c = false) ->
  forall n : Z, 0 <= n -> without c (decimal_digits fuel n) = true.
Proof.
  intros Hc. induction fuel as [|fuel IH]; intros n Hn; [reflexivity|].
  cbn [decimal_digits]. destruct (Z.ltb_spec n 10) as [Hlt|Hge].
  - unfold without. cbn [all_chars]. rewrite Hc by lia. reflexivity.
  - assert (H10 : 0 < 10) by lia.
    pose proof (Z.mod_pos_bound n 10 H10) as Hr.
    rewrite without_append, IH by (apply Z.div_pos; lia).
    unfold without. cbn [all_chars]. rewrite Hc by lia. reflexivity.
Qed.

Lemma digit_char_not (c : ascii) :
  is_digit c = false ->
  forall d : Z, 0 <= d < 10 -> Ascii.eqb (digit_char d) c = false.
Proof.
  intros Hc d Hd. apply Ascii.eqb_neq. intros <-.
  unfold is_digit in Hc. now rewrite (digit_value_char d Hd) in Hc.
Qed.

Lemma without_field_str (c : ascii) (f : field) :
  without c "-nan" = true -> is_digit c = false ->
  without c (field_str f) = true.
Proof.
  intros Hsign Hc. destruct f as [z|].
  - unfold field_str, py_str_int. destruct (Z.ltb_spec z 0) as [Hneg|Hpos].
    + unfold without in *. cbn [all_chars] in *.
      apply andb_prop in Hsign as [-> _]. cbn [andb].
      apply (without_decimal_digits c _ (digit_char_not c Hc)). lia.
    + apply (without_decimal_digits c _ (digit_char_not c Hc)). exact Hpos.
  - unfold without in *. cbn [all_chars] in *.
    apply andb_prop in Hsign as [_ H]. exact H.
Qed.

(** X19: the text that [Region.__str__] gives for a [Region] that [Parse]
    returned holds no newline and no carriage return: printing such a
    [Region] writes one line. *)
Theorem Region_str_one_line :
  forall (fs : filesystem) (filename : string) (Ls : list Region),
    Parse fs filename = Ok Ls ->
    Forall (fun r => without nl (Region_str r) = true
                     /\ without cr (Region_str r) = true) Ls.
Proof.
  intros fs filename Ls H.
  assert (Hline : forall (c : ascii) (r : Region),
             c = nl \/ c = cr ->
             without c (Name r) = true ->
             without c (Region_str r) = true).
  { intros c r Hc Hname. unfold Region_str.
    assert (Hsign : without c "-nan" = true)
      by (destruct Hc as [->| ->]; reflexivity).
    assert (Hdigit : is_digit c = false)
      by (destruct Hc as [->| ->]; reflexivity).
    rewrite !without_append, Hname, !(without_field_str c _ Hsign Hdigit).
    destruct Hc as [->| ->]; reflexivity. }
  apply Forall_forall. intros r Hr.
  assert (Hclean : clean (Name r) = true).
  { unfold Parse in H.
    destruct (fs filename) as [text|]; [cbn [bind] in H|discriminate].
    rewrite Parse_loop_mapM in H.
    destruct (mapM _ _) as [rs|] eqn:Hrs; [cbn [bind] in H|discriminate].
    injection H as <-. simpl in Hr.
    destruct (mapM_in _ _ rs Hrs r Hr) as (l & Hl & Hinit).
    destruct (Region_init_in _ r Hinit) as [_ Hn].
    assert (Hcr : without cr l = true).
    { pose proof (all_chars_lines _ _
                    (without_universal_newlines _ text (Nat.le_refl _)))
        as HF.
      rewrite Forall_forall in HF. apply HF.
      destruct (lines_keepends (universal_newlines text)); [destruct Hl|].
      now right. }
    pose proof (without_split comma (remove_char nl l)) as H1.
    pose proof (all_chars_split _ comma _ (without_remove nl l)) as H2.
    pose proof (all_chars_split _ comma _
                  (all_chars_remove _ nl l Hcr)) as H3.
    rewrite Forall_forall in H1, H2, H3. unfold clean, without in *.
    now rewrite (H1 _ Hn), (H2 _ Hn), (H3 _ Hn). }
  unfold clean in Hclean.
  apply andb_prop in Hclean as [Hclean Hcr].
  apply andb_prop in Hclean as [_ Hnl].
  split; apply Hline; auto.
Qed.

Lemma Region_str_one_line_witness :
  exists Ls : list Region,
    Parse (one_file "a.csv" (file_lines [sample_header; sample_row] true))
      "a.csv" = Ok Ls
    /\ Forall (fun r => without nl (Region_str r) = true
                        /\ without cr (Region_str r) = true) Ls.
Proof.
  eexists. split; [vm_compute; reflexivity|].
  apply (Region_str_one_line
           (one_file "a.csv" (file_lines [sample_header; sample_row] true))
           "a.csv").
  vm_compute. reflexivity.
Defined.
